(** * Schema extraction from a click command tree

    A shallow embedding of [textual_click/introspect.py]: the schema
    dataclasses, the [path_from_root] property and the recursive walk
    [process_command] that [introspect_click_app] runs over a click
    application.

    [CommandSchema] objects are mutable Python objects that refer to one
    another ([parent], [subcommands]) and are compared by identity, so
    they live in an explicit store and are named by their address.  The
    walk is written in a state-and-exception monad over that store. *)

From stdpp Require Import base numbers strings option list.

Local Open Scope string_scope.
Local Open Scope list_scope.
Local Open Scope nat_scope.

(** ** Values borrowed from the click application *)

(** [default: Any]: the Python values a parameter default may hold. *)
Inductive PyValue :=
| PyNone
| PyBool (b : bool)
| PyInt (z : Z)
| PyStr (s : string).

(** A command callback, held by reference and never called. *)
Inductive Callable :=
| FunctionRef (id : nat).

Abbreviation CommandName := string (only parsing).

(** ** The click object model read by the walk *)

(** [param.type], as the walk finds it.  The walk reads the [name]
    attribute of the type and tests whether the type is a [click.Choice],
    whose [choices] it then reads.  click declares [ParamType.name] without
    a value, so a type object may have no such attribute: [None] below.
    The parameter object may also have no [type] at all: [MissingType].
    Every [click.Parameter] has one; a [click.core.Group], which the walk
    takes for an option when it finds one among the parameters, has
    none. *)
Inductive ParamType :=
| Choice (name : option string) (choices : list string)
| OtherType (name : option string)
| MissingType.

Definition type_name (t : ParamType) : option string :=
  match t with
  | Choice n _ => n
  | OtherType n => n
  | MissingType => None
  end.

(** The class of a parameter object, as the [isinstance] tests see it:
    [click.Option], [click.core.Group], [click.Argument], or a
    [click.Parameter] that is none of them. *)
Inductive ParamClass :=
| ClickOption
| ClickGroup
| ClickArgument
| ClickParameter.

(** The attributes of a parameter object that the walk reads: [name],
    [type], [required], [default] and, of an option-like object, [help].
    The walk reads them by name, whatever the class of the object.  A
    [click.Option] and a [click.Argument] have them all.  A
    [click.core.Group] has [name] and [help] but no [type], [required] or
    [default]: its [param_type] is [MissingType], and since [type] is read
    before the other two, they are never looked at.  A group-like object
    of a class that does give it a [type] is taken to have [required] and
    [default] as well. *)
Record Param := mkParam {
  param_class : ParamClass;
  param_name : string;
  param_type : ParamType;
  param_required : bool;
  param_default : PyValue;
  param_help : option string
}.

(** [click.Command] and its subclass [click.core.Group], which adds the
    [commands] dict (kept in insertion order).  The induction principle
    that reaches the commands inside the dict is [Command_ind'] below. *)
Local Unset Elimination Schemes.
Inductive Command :=
| Command_ (help : option string) (callback : option Callable)
    (params : list Param)
| Group (help : option string) (callback : option Callable)
    (params : list Param) (commands : list (string * Command)).
Local Set Elimination Schemes.

Definition help (c : Command) : option string :=
  match c with
  | Command_ h _ _ => h
  | Group h _ _ _ => h
  end.

Definition callback (c : Command) : option Callable :=
  match c with
  | Command_ _ f _ => f
  | Group _ f _ _ => f
  end.

Definition params (c : Command) : list Param :=
  match c with
  | Command_ _ _ ps => ps
  | Group _ _ ps _ => ps
  end.

(** The children the walk descends into: those of a [Group], none for a
    plain command. *)
Definition children (c : Command) : list (string * Command) :=
  match c with
  | Command_ _ _ _ => []
  | Group _ _ _ cs => cs
  end.

(** ** The schema dataclasses *)

Record OptionSchema := mkOptionSchema {
  option_name : string;
  option_type : string;
  option_default : PyValue;
  option_required : bool;
  option_help : option string;
  option_choices : option (list string)
}.

Record ArgumentSchema := mkArgumentSchema {
  argument_name : string;
  argument_type : string;
  argument_required : bool;
  argument_default : PyValue;
  argument_choices : option (list string)
}.

(** The address of a [CommandSchema] object in the store. *)
Abbreviation addr := nat (only parsing).

Record CommandSchema := mkCommandSchema {
  name : CommandName;
  function : option Callable;
  docstring : option string;
  options : list OptionSchema;
  arguments : list ArgumentSchema;
  subcommands : list (CommandName * addr);
  parent : option addr
}.

Abbreviation Heap := (list CommandSchema) (only parsing).

(** ** Python dicts as insertion-ordered association lists *)

(** [d[k] = v]: replaces the value of an existing key in place, appends a
    new key at the end. *)
Fixpoint dict_set {V : Type} (k : string) (v : V) (d : list (string * V))
  : list (string * V) :=
  match d with
  | [] => [(k, v)]
  | (k', v') :: d' =>
      if decide (k = k') then (k, v) :: d' else (k', v') :: dict_set k v d'
  end.

Fixpoint dict_get {V : Type} (k : string) (d : list (string * V)) : option V :=
  match d with
  | [] => None
  | (k', v) :: d' => if decide (k = k') then Some v else dict_get k d'
  end.

Definition keys {V : Type} (d : list (string * V)) : list string := d.*1.

(** ** The monad of the walk: a store of schemas, and Python exceptions *)

Inductive PyError :=
| AttributeError (attr : string)
| RecursionError.

Definition Run (A : Type) : Type := Heap → PyError + A * Heap.

Definition ret {A : Type} (x : A) : Run A := λ h, inr (x, h).

Definition raise {A : Type} (e : PyError) : Run A := λ _, inl e.

Definition bind {A B : Type} (m : Run A) (k : A → Run B) : Run B :=
  λ h, match m h with
       | inl e => inl e
       | inr (x, h') => k x h'
       end.

Notation "'let*' x := m 'in' k" := (bind m (λ x, k))
  (at level 10, x binder, k at level 200).

(** Object creation: the new object gets the next free address. *)
Definition alloc (c : CommandSchema) : Run addr :=
  λ h, inr (length h, h ++ [c]).

(** In-place mutation of the object at [a].  The walk only mutates objects
    it has created, so [a] is always in the store; on another address the
    store is left as it is. *)
Definition update (a : addr) (f : CommandSchema → CommandSchema) : Run unit :=
  λ h, inr (tt, alter f a h).

(** [for x in l: body(x)] *)
Section for_each.
Context {A : Type} (body : A → Run unit).

Fixpoint for_each (l : list A) : Run unit :=
  match l with
  | [] => ret tt
  | x :: l' => let* _ := body x in for_each l'
  end.
End for_each.

(** ** [process_command] *)

(** [param.type.name]: two attribute reads, either of which can fail. *)
Definition type_name_attr (t : ParamType) : Run string :=
  match t with
  | MissingType => raise (AttributeError "type")
  | Choice n _ | OtherType n =>
      match n with
      | Some n => ret n
      | None => raise (AttributeError "name")
      end
  end.

Definition append_option (o : OptionSchema) (c : CommandSchema) : CommandSchema :=
  mkCommandSchema (name c) (function c) (docstring c)
    (options c ++ [o]) (arguments c) (subcommands c) (parent c).

Definition append_argument (a : ArgumentSchema) (c : CommandSchema) : CommandSchema :=
  mkCommandSchema (name c) (function c) (docstring c)
    (options c) (arguments c ++ [a]) (subcommands c) (parent c).

Definition set_subcommand (k : CommandName) (child : addr) (c : CommandSchema)
  : CommandSchema :=
  mkCommandSchema (name c) (function c) (docstring c)
    (options c) (arguments c) (dict_set k child (subcommands c)) (parent c).

Definition set_choices (cs : list string) (a : ArgumentSchema) : ArgumentSchema :=
  mkArgumentSchema (argument_name a) (argument_type a) (argument_required a)
    (argument_default a) (Some cs).

(** The body of [for param in cmd_obj.params]. *)
Definition process_param (cmd_data : addr) (param : Param) : Run unit :=
  match param_class param with
  | ClickOption | ClickGroup =>
      let* ty := type_name_attr (param_type param) in
      let option_data :=
        {| option_name := param_name param;
           option_type := ty;
           option_required := param_required param;
           option_default := param_default param;
           option_help := param_help param;
           option_choices := None |} in
      update cmd_data (append_option option_data)
  | ClickArgument =>
      let* ty := type_name_attr (param_type param) in
      let argument_data :=
        {| argument_name := param_name param;
           argument_type := ty;
           argument_required := param_required param;
           argument_default := PyNone;
           argument_choices := None |} in
      let argument_data :=
        match param_type param with
        | Choice _ cs => set_choices cs argument_data
        | OtherType _ | MissingType => argument_data
        end in
      update cmd_data (append_argument argument_data)
  | ClickParameter => ret tt
  end.

Fixpoint process_command (cmd_name : CommandName) (cmd_obj : Command)
    (parent : option addr) {struct cmd_obj} : Run addr :=
  let* cmd_data := alloc
    {| name := cmd_name;
       docstring := help cmd_obj;
       function := callback cmd_obj;
       options := [];
       arguments := [];
       subcommands := [];
       parent := parent |} in
  let* _ := for_each (process_param cmd_data) (params cmd_obj) in
  let* _ :=
    match cmd_obj with
    | Group _ _ _ commands =>
        for_each (λ '(subcmd_name, subcmd_obj),
            let* child :=
              process_command subcmd_name subcmd_obj (Some cmd_data) in
            update cmd_data (set_subcommand subcmd_name child))
          commands
    | Command_ _ _ _ => ret tt
    end in
  ret cmd_data.

(** The loop of [introspect_click_app], with its local dict [data]. *)
Fixpoint top_level (commands : list (string * Command))
    (data : list (CommandName * addr)) : Run (list (CommandName * addr)) :=
  match commands with
  | [] => ret data
  | (cmd_name, cmd_obj) :: rest =>
      let* a := process_command cmd_name cmd_obj None in
      top_level rest (dict_set cmd_name a data)
  end.

(** [app.commands] exists on a [Group] only. *)
Definition introspect_click_app (app : Command) : Run (list (CommandName * addr)) :=
  match app with
  | Group _ _ _ commands => top_level commands []
  | Command_ _ _ _ => raise (AttributeError "commands")
  end.

(** ** [CommandSchema.path_from_root] *)

(** The [while node.parent is not None] loop; [path] is built leaf-first as
    in the source.  [fuel] bounds the number of loop tests; [None] when it
    runs out (or when an address is not in the store, which no reference
    obtained from the store can be). *)
Fixpoint path_loop (fuel : nat) (h : Heap) (node : addr) (path : list addr)
  : option (list addr) :=
  match fuel with
  | O => None
  | S fuel' =>
      match h !! node with
      | None => None
      | Some c =>
          match parent c with
          | None => Some path
          | Some p => path_loop fuel' h p (path ++ [p])
          end
      end
  end.

Definition path_from_root (fuel : nat) (h : Heap) (self : addr)
  : option (list addr) :=
  reverse <$> path_loop fuel h self [self].

(** ** The walk over the objects themselves *)

(** The click objects as Python holds them.  Every command object has an
    identity, and the [commands] dict of a group holds references to
    command objects: nothing in the objects forces them to form a tree. *)
Abbreviation ref := nat (only parsing).

Record CommandObject := mkCommandObject {
  object_help : option string;
  object_callback : option Callable;
  object_params : list Param;
  (** [Some] for a [Group] *)
  object_commands : option (list (string * ref))
}.

(** [process_command] again, on a reference to a command object, and with
    a bound [limit] on how deep its calls may nest: a call made when the
    bound is used up raises [RecursionError].  The bound counts the calls
    of [process_command] only.  The interpreter's own limit also counts the
    frames of the calls made inside one (the constructors of the
    dataclasses), so it is reached a few levels earlier than [limit] says;
    what [limit] measures exactly is the nesting of [process_command]
    itself. *)
Fixpoint process_object (limit : nat) (objects : ref → CommandObject)
    (cmd_name : CommandName) (cmd_obj : ref) (parent : option addr)
    {struct limit} : Run addr :=
  match limit with
  | O => raise RecursionError
  | S limit' =>
      let* cmd_data := alloc
        {| name := cmd_name;
           docstring := object_help (objects cmd_obj);
           function := object_callback (objects cmd_obj);
           options := [];
           arguments := [];
           subcommands := [];
           parent := parent |} in
      let* _ :=
        for_each (process_param cmd_data) (object_params (objects cmd_obj)) in
      let* _ :=
        match object_commands (objects cmd_obj) with
        | Some commands =>
            for_each (λ '(subcmd_name, subcmd_obj),
                let* child :=
                  process_object limit' objects subcmd_name subcmd_obj
                    (Some cmd_data) in
                update cmd_data (set_subcommand subcmd_name child))
              commands
        | None => ret tt
        end in
      ret cmd_data
  end.

(** The objects reached from [r] form the tree [cmd]. *)
Local Unset Elimination Schemes.
Inductive unfolds_to (objects : ref → CommandObject) : ref → Command → Prop :=
| unfolds_command r hp cb ps :
    objects r = mkCommandObject hp cb ps None →
    unfolds_to objects r (Command_ hp cb ps)
| unfolds_group r hp cb ps refs cs :
    objects r = mkCommandObject hp cb ps (Some refs) →
    Forall2 (λ kr kc, kr.1 = kc.1 ∧ unfolds_to objects kr.2 kc.2) refs cs →
    unfolds_to objects r (Group hp cb ps cs).
Local Set Elimination Schemes.

(** The number of group levels below a command: the nested calls of
    [process_command] that a call on it makes. *)
Fixpoint command_depth (c : Command) : nat :=
  match c with
  | Command_ _ _ _ => 0
  | Group _ _ _ cs =>
      foldr (λ kc d, S (command_depth kc.2) `max` d) 0 cs
  end.

(** ** What the input is required to be *)

Definition is_option_like (p : Param) : bool :=
  match param_class p with
  | ClickOption | ClickGroup => true
  | _ => false
  end.

Definition is_positional (p : Param) : bool :=
  match param_class p with
  | ClickArgument => true
  | _ => false
  end.

(** The parameter is of a class the walk knows. *)
Definition param_classified (p : Param) : bool :=
  is_option_like p || is_positional p.

(** The walk can read the parameter's type name (it does not read it for a
    parameter of an unknown class). *)
Definition param_type_named (p : Param) : bool :=
  match type_name (param_type p) with
  | Some _ => true
  | None => negb (param_classified p)
  end.

(** [ok] holds of a command and of every command below it. *)
Section all_commands.
Context (ok : Command → bool).

Fixpoint all_commands (c : Command) : bool :=
  ok c &&
  match c with
  | Command_ _ _ _ => true
  | Group _ _ _ cs => forallb (λ kc, all_commands kc.2) cs
  end.
End all_commands.

Definition types_resolvable : Command → bool :=
  all_commands (λ c, forallb param_type_named (params c)).

Definition params_classified : Command → bool :=
  all_commands (λ c, forallb param_classified (params c)).

(** A Python dict has no two equal keys; the association list that stands
    for [commands] has to be told. *)
Definition keys_unique : Command → bool :=
  all_commands (λ c, bool_decide (NoDup (keys (children c)))).

Definition valid_command (c : Command) : bool :=
  types_resolvable c && params_classified c && keys_unique c.

(** The application handed to [introspect_click_app]: a group, whose own
    parameters are not looked at. *)
Definition valid_app (app : Command) : bool :=
  match app with
  | Command_ _ _ _ => false
  | Group _ _ _ cs =>
      bool_decide (NoDup (keys cs)) && forallb (λ kc, valid_command kc.2) cs
  end.

(** What the walk needs of a command to go through: type names it can
    read, and [commands] dicts that are dicts.  A valid command is
    extractable ([valid_app_inv]); what does not depend on the classes of
    the parameters is proved of extractable applications. *)
Definition extractable (c : Command) : bool :=
  types_resolvable c && keys_unique c.

Definition extractable_app (app : Command) : bool :=
  match app with
  | Command_ _ _ _ => false
  | Group _ _ _ cs =>
      bool_decide (NoDup (keys cs)) && forallb (λ kc, extractable kc.2) cs
  end.

(** ** Where the walk fails *)

(** The attribute that the walk cannot read when it comes to [p], if there
    is one: the [type] of a parameter object that has none, or the [name]
    of its type.  Nothing is read of a parameter of a class the walk does
    not know. *)
Definition param_failure (p : Param) : option string :=
  if param_classified p then
    match param_type p with
    | MissingType => Some "type"
    | Choice None _ | OtherType None => Some "name"
    | Choice (Some _) _ | OtherType (Some _) => None
    end
  else None.

(** The first element of [l] at which there is a failure. *)
Section first_of.
Context {A : Type} (failure : A → option string).

Fixpoint first_of (l : list A) : option string :=
  match l with
  | [] => None
  | x :: l' =>
      match failure x with
      | Some attr => Some attr
      | None => first_of l'
      end
  end.
End first_of.

(** The first read that fails, in the order of the walk: the parameters of
    the command in turn, then its children in turn, each with all that is
    below it. *)
Fixpoint first_failure (c : Command) : option string :=
  match first_of param_failure (params c) with
  | Some attr => Some attr
  | None =>
      match c with
      | Command_ _ _ _ => None
      | Group _ _ _ cs => first_of (λ kc, first_failure kc.2) cs
      end
  end.

(** ** What a schema is expected to hold *)

Definition option_matches (p : Param) (o : OptionSchema) : Prop :=
  option_name o = param_name p ∧
  type_name (param_type p) = Some (option_type o) ∧
  option_required o = param_required p ∧
  option_default o = param_default p ∧
  option_help o = param_help p.

Definition type_choices (t : ParamType) : option (list string) :=
  match t with
  | Choice _ cs => Some cs
  | OtherType _ | MissingType => None
  end.

Definition argument_matches (p : Param) (a : ArgumentSchema) : Prop :=
  argument_name a = param_name p ∧
  type_name (param_type p) = Some (argument_type a) ∧
  argument_required a = param_required p ∧
  argument_choices a = type_choices (param_type p).

(** The schema [s] describes the command [cmd] registered as [n] under
    [par], children aside. *)
Record node_for (n : CommandName) (cmd : Command) (par : option addr)
    (s : CommandSchema) : Prop := mk_node_for {
  node_name : name s = n;
  node_docstring : docstring s = help cmd;
  node_function : function s = callback cmd;
  node_parent : parent s = par;
  node_options :
    Forall2 option_matches (filter is_option_like (params cmd)) (options s);
  node_option_choices : Forall (λ o, option_choices o = None) (options s);
  node_arguments :
    Forall2 argument_matches (filter is_positional (params cmd)) (arguments s);
  node_argument_defaults :
    Forall (λ a, argument_default a = PyNone) (arguments s);
  node_keys : keys (subcommands s) = keys (children cmd);
  node_keys_unique : NoDup (keys (subcommands s))
}.

(** The object at [a] and the objects below it, all at addresses in
    [a, hi), describe [cmd] and the commands below it. *)
Local Unset Elimination Schemes.
Inductive mirrors (hi : nat) (h : Heap)
  : addr → CommandName → Command → option addr → Prop :=
| mirrors_node a n cmd par s :
    a < hi →
    h !! a = Some s →
    node_for n cmd par s →
    Forall2 (λ kc ka, kc.1 = ka.1 ∧ a < ka.2 ∧
                      mirrors hi h ka.2 kc.1 kc.2 (Some a))
      (children cmd) (subcommands s) →
    mirrors hi h a n cmd par.
Local Set Elimination Schemes.

(** ** Walking down by names, in the input and in the output *)

Fixpoint find_command (cmds : list (string * Command)) (path : list string)
  : option Command :=
  match path with
  | [] => None
  | k :: rest =>
      match dict_get k cmds with
      | None => None
      | Some c =>
          match rest with
          | [] => Some c
          | _ :: _ => find_command (children c) rest
          end
      end
  end.

Fixpoint find_schema (h : Heap) (d : list (CommandName * addr))
    (path : list string) : option addr :=
  match path with
  | [] => None
  | k :: rest =>
      match dict_get k d with
      | None => None
      | Some a =>
          match rest with
          | [] => Some a
          | _ :: _ =>
              match h !! a with
              | None => None
              | Some s => find_schema h (subcommands s) rest
              end
          end
      end
  end.

(** The nodes of the output: those in the returned dict, at depth 0, and
    those in the [subcommands] of a node of the output, one level down. *)
Inductive depth_in (h : Heap) (data : list (CommandName * addr))
  : addr → nat → Prop :=
| depth_top k a :
    (k, a) ∈ data → depth_in h data a 0
| depth_sub b s k c d :
    depth_in h data b d →
    h !! b = Some s →
    (k, c) ∈ subcommands s →
    depth_in h data c (S d).

Definition reachable (h : Heap) (data : list (CommandName * addr)) (a : addr)
  : Prop :=
  ∃ d, depth_in h data a d.

(** Consecutive elements of a path are parent and child, each way. *)
Definition linked (h : Heap) (path : list addr) : Prop :=
  ∀ i p c, path !! i = Some p → path !! S i = Some c →
    ∃ sp sc, h !! p = Some sp ∧ h !! c = Some sc ∧
             parent sc = Some p ∧ (name sc, c) ∈ subcommands sp.

(** ** The properties of the output *)

(** Parent links: the schemas in the returned dict have no parent and
    carry the name they are registered under; every node of the output
    lists each child once, and each child points back to it and carries
    the name it is listed under. *)
Definition parent_links (h : Heap) (data : list (CommandName * addr)) : Prop :=
  (∀ k a, (k, a) ∈ data →
     ∃ s, h !! a = Some s ∧ parent s = None ∧ name s = k) ∧
  (∀ b, reachable h data b →
     ∃ s, h !! b = Some s ∧ NoDup (keys (subcommands s)) ∧
          ∀ k c, (k, c) ∈ subcommands s →
            ∃ sc, h !! c = Some sc ∧ parent sc = Some b ∧ name sc = k).

(** [P cmd s] holds of every command [cmd] of the application and of the
    schema [s] found in the output under the same names. *)
Definition at_every_command (app : Command) (h : Heap)
    (data : list (CommandName * addr))
    (P : Command → CommandSchema → Prop) : Prop :=
  ∀ path cmd,
    find_command (children app) path = Some cmd →
    ∃ a s, find_schema h data path = Some a ∧ h !! a = Some s ∧ P cmd s.

(** The two parameter lists of [s] split the parameters of [cmd]: every
    parameter is option-like or positional and not both, the option-like
    ones are the options, the positional ones the arguments, one schema
    each and in order. *)
Definition params_partitioned (cmd : Command) (s : CommandSchema) : Prop :=
  length (options s) + length (arguments s) = length (params cmd) ∧
  Forall2 option_matches (filter is_option_like (params cmd)) (options s) ∧
  Forall2 argument_matches (filter is_positional (params cmd)) (arguments s) ∧
  ∀ p, p ∈ params cmd → is_option_like p = negb (is_positional p).

(** The choices of every argument of [s] are those of the type of its
    positional parameter: present exactly for a [Choice], and then the
    declared list. *)
Definition choices_extracted (cmd : Command) (s : CommandSchema) : Prop :=
  Forall2 (λ p a,
      argument_name a = param_name p ∧
      (is_Some (argument_choices a) ↔ ∃ n cs, param_type p = Choice n cs) ∧
      (∀ n cs, param_type p = Choice n cs → argument_choices a = Some cs))
    (filter is_positional (params cmd)) (arguments s).

(** The options of [s] are the option-like parameters of [cmd], fields
    copied; the arguments are as many as the positional parameters, so no
    option-like parameter is among them. *)
Definition options_extracted (cmd : Command) (s : CommandSchema) : Prop :=
  Forall2 option_matches (filter is_option_like (params cmd)) (options s) ∧
  length (arguments s) = length (filter is_positional (params cmd)).

(** No option of a node of the output has choices. *)
Definition option_choices_absent (h : Heap) (data : list (CommandName * addr))
  : Prop :=
  ∀ b s, reachable h data b → h !! b = Some s →
    Forall (λ o, option_choices o = None) (options s).

(** The output has the shape of the input: same top-level names, roots
    without parent, a schema for every command and none besides, and under
    each schema the names of the command's children; none when there are
    no children. *)
Definition nesting_mirrored (app : Command) (h : Heap)
    (data : list (CommandName * addr)) : Prop :=
  keys data = keys (children app) ∧
  (∀ k a, dict_get k data = Some a →
     ∃ s, h !! a = Some s ∧ parent s = None ∧ name s = k) ∧
  (∀ path, is_Some (find_schema h data path) →
     is_Some (find_command (children app) path)) ∧
  at_every_command app h data (λ cmd s,
    docstring s = help cmd ∧ function s = callback cmd ∧
    keys (subcommands s) = keys (children cmd) ∧
    (children cmd = [] → subcommands s = [])).

(** The output is the whole tree of schemas: it has the shape of the
    input, every child points back to its parent, and the schema of every
    command has an option for each option-like parameter and an argument
    for each positional parameter of the command, in order and with the
    fields copied, and nothing else in those two lists. *)
Definition complete_tree (app : Command) (h : Heap)
    (data : list (CommandName * addr)) : Prop :=
  nesting_mirrored app h data ∧
  parent_links h data ∧
  at_every_command app h data (λ cmd s,
    Forall2 option_matches (filter is_option_like (params cmd)) (options s) ∧
    Forall2 argument_matches (filter is_positional (params cmd))
      (arguments s)).

(** [path_from_root] on the nodes of the output: for a node at depth [d],
    once the loop is given room for its [d + 1] tests it returns a path of
    [d + 1] nodes, from a node without parent down to the queried node,
    each node the parent of the next. *)
Definition rooted_paths (h : Heap) (data : list (CommandName * addr)) : Prop :=
  ∀ a d, depth_in h data a d →
    ∀ fuel, d < fuel →
      ∃ path,
        path_from_root fuel h a = Some path ∧
        length path = S d ∧
        (∃ r sr, head path = Some r ∧ h !! r = Some sr ∧ parent sr = None) ∧
        last path = Some a ∧
        linked h path.

(** ** Sample applications *)

(** A [tool] group with an [add] command, a [list] command and a nested
    [remote] group. *)
Definition add_command : Command :=
  Command_ (Some "Add a path") (Some (FunctionRef 1))
    [mkParam ClickOption "force" (OtherType (Some "bool")) false
       (PyBool false) (Some "Overwrite");
     mkParam ClickArgument "path" (OtherType (Some "string")) true PyNone None;
     mkParam ClickArgument "mode" (Choice (Some "choice") ["a"; "b"; "c"])
       false (PyStr "a") None;
     mkParam ClickGroup "extra" (OtherType (Some "text")) false PyNone None;
     mkParam ClickOption "level" (Choice (Some "choice") ["lo"; "hi"])
       false (PyStr "lo") None].

Definition list_command : Command :=
  Command_ None (Some (FunctionRef 2)) [].

Definition remote_group : Command :=
  Group (Some "Remotes") None []
    [("show", Command_ None (Some (FunctionRef 3)) []);
     ("empty", Group None None [] [])].

Definition tool_group : Command :=
  Group None (Some (FunctionRef 0)) []
    [("add", add_command); ("list", list_command); ("remote", remote_group)].

Definition demo_app : Command :=
  Group None None [] [("tool", tool_group)].

(** The objects of [tool_group], the group itself at reference 0. *)
Definition demo_objects (r : ref) : CommandObject :=
  match r with
  | 0 => mkCommandObject None (Some (FunctionRef 0)) []
           (Some [("add", 1); ("list", 2); ("remote", 3)])
  | 1 => mkCommandObject (help add_command) (callback add_command)
           (params add_command) None
  | 2 => mkCommandObject None (Some (FunctionRef 2)) [] None
  | 3 => mkCommandObject (Some "Remotes") None []
           (Some [("show", 4); ("empty", 5)])
  | 4 => mkCommandObject None (Some (FunctionRef 3)) [] None
  | _ => mkCommandObject None None [] (Some [])
  end.

(** A group that lists itself among its commands. *)
Definition looping_objects (r : ref) : CommandObject :=
  mkCommandObject None None [] (Some [("again", 0)]).

(** An application with a parameter that is neither an option nor an
    argument. *)
Definition unclassified_app : Command :=
  Group None None []
    [("run", Command_ None (Some (FunctionRef 1))
       [mkParam ClickParameter "width" (OtherType (Some "int")) true
          PyNone None])].

(** An application with an option whose type has no [name]. *)
Definition unnamed_type_app : Command :=
  Group None None []
    [("tool", Group None None []
       [("run", Command_ None (Some (FunctionRef 1))
          [mkParam ClickOption "width" (OtherType None) true PyNone None])])].

(** An application with a [click.core.Group] among the parameters of a
    command, after an option that is in order; the fields that a group
    does not have are never read. *)
Definition group_param_app : Command :=
  Group None None []
    [("run", Command_ None (Some (FunctionRef 1))
       [mkParam ClickOption "width" (OtherType (Some "int")) true PyNone None;
        mkParam ClickGroup "sub" MissingType false PyNone (Some "A group");
        mkParam ClickOption "depth" (OtherType None) true PyNone None])].

(** An application with a positional parameter that declares a default. *)
Definition default_app : Command :=
  Group None None []
    [("greet", Command_ None (Some (FunctionRef 1))
       [mkParam ClickArgument "who" (OtherType (Some "text")) false
          (PyStr "world") None])].

(** ** Notions used in the proofs *)

(** The two errors that reading [param.type.name] can raise. *)
Definition read_failure (e : PyError) : Prop :=
  e = AttributeError "type" ∨ e = AttributeError "name".

(** [s'] is [s] with [os] and [args] appended to its parameter lists. *)
Definition params_added (s s' : CommandSchema) (os : list OptionSchema)
    (args : list ArgumentSchema) : Prop :=
  name s' = name s ∧ docstring s' = docstring s ∧ function s' = function s ∧
  parent s' = parent s ∧ subcommands s' = subcommands s ∧
  options s' = options s ++ os ∧ arguments s' = arguments s ++ args.

(** [s'] is [s] with [subs] appended to its [subcommands]. *)
Definition children_added (s s' : CommandSchema)
    (subs : list (CommandName * addr)) : Prop :=
  name s' = name s ∧ docstring s' = docstring s ∧ function s' = function s ∧
  parent s' = parent s ∧ options s' = options s ∧
  arguments s' = arguments s ∧ subcommands s' = subcommands s ++ subs.

(** The store [h'] has the objects of [h], unchanged, and new ones. *)
Definition grows (h h' : Heap) : Prop :=
  length h < length h' ∧ ∀ b, b < length h → h' !! b = h !! b.

(** The body of [for subcmd_name, subcmd_obj in cmd_obj.commands.items()]. *)
Definition process_child (cmd_data : addr) (kc : string * Command) : Run unit :=
  let '(subcmd_name, subcmd_obj) := kc in
  let* child := process_command subcmd_name subcmd_obj (Some cmd_data) in
  update cmd_data (set_subcommand subcmd_name child).

(** The same body in the walk over the objects. *)
Definition process_child_object (limit : nat) (objects : ref → CommandObject)
    (cmd_data : addr) (kr : string * ref) : Run unit :=
  let '(subcmd_name, subcmd_obj) := kr in
  let* child :=
    process_object limit objects subcmd_name subcmd_obj (Some cmd_data) in
  update cmd_data (set_subcommand subcmd_name child).

(** What a call of [process_command] on [cmd] does when nothing fails. *)
Definition builds (cmd : Command) : Prop :=
  ∀ n par h,
    types_resolvable cmd = true → keys_unique cmd = true →
    ∃ h', process_command n cmd par h = inr (length h, h') ∧
          grows h h' ∧ mirrors (length h') h' (length h) n cmd par.

(** ** Parent chains in any store *)

(** [r] is [a] itself or is reached from [a] by following [parent]. *)
Inductive ancestor (h : Heap) : addr → addr → Prop :=
| ancestor_self a : ancestor h a a
| ancestor_parent a s p r :
    h !! a = Some s → parent s = Some p → ancestor h p r → ancestor h a r.

Definition is_root (h : Heap) (r : addr) : Prop :=
  ∃ s, h !! r = Some s ∧ parent s = None.

(** Every element of the path is the [parent] of the next. *)
Definition parent_chain (h : Heap) (path : list addr) : Prop :=
  ∀ i p c, path !! i = Some p → path !! S i = Some c →
    ∃ sc, h !! c = Some sc ∧ parent sc = Some p.

(** The store that the extraction of [demo_app] leaves. *)
Definition demo_store : Heap :=
  match introspect_click_app demo_app [] with
  | inr (_, h) => h
  | inl _ => []
  end.

(** ** Sizes, relocation and pruning *)

(** The number of commands of a tree, the command itself included. *)
Fixpoint command_count (c : Command) : nat :=
  match c with
  | Command_ _ _ _ => 1
  | Group _ _ _ cs => S (sum_list_with (λ kc, command_count kc.2) cs)
  end.

(** A schema, and a dict of schemas, with every address moved up by [k]. *)
Definition relocate_dict (k : nat) (d : list (CommandName * addr))
  : list (CommandName * addr) :=
  (λ ka, (ka.1, k + ka.2)) <$> d.

Definition relocate (k : nat) (s : CommandSchema) : CommandSchema :=
  mkCommandSchema (name s) (function s) (docstring s)
    (options s) (arguments s)
    (relocate_dict k (subcommands s)) (Nat.add k <$> parent s).

(** The outcome of a run in an empty region of the store, seen from a
    store that has the objects [before] below that region. *)
Definition moved {A : Type} (before : Heap) (move : A → A)
    (r : PyError + A * Heap) : PyError + A * Heap :=
  match r with
  | inl e => inl e
  | inr (x, h) => inr (move x, before ++ (relocate (length before) <$> h))
  end.

(** A command tree without the parameters of a class the walk does not
    know. *)
Fixpoint strip_unclassified (c : Command) : Command :=
  match c with
  | Command_ hp cb ps => Command_ hp cb (filter param_classified ps)
  | Group hp cb ps cs =>
      Group hp cb (filter param_classified ps)
        ((λ kc, (kc.1, strip_unclassified kc.2)) <$> cs)
  end.

(** The objects of [path] carry the names [names], in order. *)
Definition named_path (h : Heap) (path : list addr) (names : list string)
  : Prop :=
  Forall2 (λ b k, ∃ s, h !! b = Some s ∧ name s = k) path names.

(** * Proofs *)

(** ** Runs on the samples *)

Example dict_set_replaces_in_place :
  dict_set "a" 2 [("a", 1); ("b", 3)] = [("a", 2); ("b", 3)] ∧
  dict_set "c" 2 [("a", 1); ("b", 3)] = [("a", 1); ("b", 3); ("c", 2)].
Proof. split; reflexivity. Qed.

Example demo_app_run :
  ∃ h,
    introspect_click_app demo_app [] = inr ([("tool", 0)], h) ∧
    name <$> h = ["tool"; "add"; "list"; "remote"; "show"; "empty"] ∧
    parent <$> h = [None; Some 0; Some 0; Some 0; Some 3; Some 3] ∧
    subcommands <$> h !! 0 = Some [("add", 1); ("list", 2); ("remote", 3)] ∧
    subcommands <$> h !! 5 = Some [].
Proof. eexists. repeat split; reflexivity. Qed.

Example demo_app_add_schema :
  ∃ data h,
    introspect_click_app demo_app [] = inr (data, h) ∧
    find_schema h data ["tool"; "add"] = Some 1 ∧
    options <$> h !! 1 =
      Some [mkOptionSchema "force" "bool" (PyBool false) false
              (Some "Overwrite") None;
            mkOptionSchema "extra" "text" PyNone false None None;
            mkOptionSchema "level" "choice" (PyStr "lo") false None None] ∧
    arguments <$> h !! 1 =
      Some [mkArgumentSchema "path" "string" true PyNone None;
            mkArgumentSchema "mode" "choice" false PyNone
              (Some ["a"; "b"; "c"])].
Proof. eexists _, _. repeat split; reflexivity. Qed.

Example demo_app_paths :
  ∃ data h,
    introspect_click_app demo_app [] = inr (data, h) ∧
    path_from_root 3 h 4 = Some [0; 3; 4] ∧
    path_from_root 2 h 4 = None ∧
    path_from_root 1 h 0 = Some [0].
Proof. eexists _, _. repeat split; reflexivity. Qed.

Example unnamed_type_app_run :
  introspect_click_app unnamed_type_app [] = inl (AttributeError "name").
Proof. reflexivity. Qed.

Example group_param_app_run :
  introspect_click_app group_param_app [] = inl (AttributeError "type").
Proof. reflexivity. Qed.

Example looping_objects_run :
  process_object 1000 looping_objects "again" 0 None [] = inl RecursionError.
Proof. vm_compute. reflexivity. Qed.

(** ** Induction over a command tree *)

Lemma Command_ind' (P : Command → Prop) :
  (∀ h cb ps, P (Command_ h cb ps)) →
  (∀ h cb ps cs, Forall (λ kc, P kc.2) cs → P (Group h cb ps cs)) →
  ∀ c, P c.
Proof.
  intros Hleaf Hgroup. fix IH 1. intros [h cb ps | h cb ps cs].
  - apply Hleaf.
  - apply Hgroup.
    induction cs as [|[k c] cs IHcs]; constructor; [apply IH | apply IHcs].
Qed.

Lemma Forall2_with_Forall {A B : Type} (P : A → Prop) (R Q : A → B → Prop)
    (l : list A) (k : list B) :
  Forall P l → Forall2 R l k → (∀ x y, P x → R x y → Q x y) → Forall2 Q l k.
Proof.
  intros HP HR HQ. revert HP.
  induction HR as [|x y l k Hxy _ IH]; intros HP; [constructor|].
  inversion_clear HP. constructor; auto.
Qed.

(** ** Dicts *)

Lemma dict_set_fresh {V : Type} (k : string) (v : V) (d : list (string * V)) :
  k ∉ keys d → dict_set k v d = d ++ [(k, v)].
Proof.
  unfold keys. induction d as [|[k' v'] d IH]; intros Hk; [done|].
  simpl in *. apply not_elem_of_cons in Hk as [Hne Hk].
  rewrite decide_False by done. by rewrite IH.
Qed.

Lemma keys_app {V : Type} (d1 d2 : list (string * V)) :
  keys (d1 ++ d2) = keys d1 ++ keys d2.
Proof. unfold keys. apply fmap_app. Qed.

Lemma dict_get_Some_elem {V : Type} (k : string) (v : V) (d : list (string * V)) :
  dict_get k d = Some v → (k, v) ∈ d.
Proof.
  induction d as [|[k' v'] d IH]; [done|]. simpl. case_decide.
  - intros [= ->]. subst. apply elem_of_cons; by left.
  - intros Hg. apply elem_of_cons; right. auto.
Qed.

(** Two dicts with the same keys in the same order are looked up alike. *)
Section dict_Forall2.
Context {V W : Type} (R : string * V → string * W → Prop).
Context (R_keys : ∀ x y, R x y → x.1 = y.1).

Lemma dict_get_Forall2 d e k v :
  Forall2 R d e → dict_get k d = Some v →
  ∃ w, dict_get k e = Some w ∧ R (k, v) (k, w).
Proof.
  induction 1 as [|[k1 v1] [k2 w2] d e HR _ IH]; [done|].
  pose proof (R_keys _ _ HR) as Hk. simpl in *. subst k2. case_decide.
  - intros [= ->]. subst. eauto.
  - auto.
Qed.

Lemma dict_get_Forall2_r d e k w :
  Forall2 R d e → dict_get k e = Some w →
  ∃ v, dict_get k d = Some v ∧ R (k, v) (k, w).
Proof.
  induction 1 as [|[k1 v1] [k2 w2] d e HR _ IH]; [done|].
  pose proof (R_keys _ _ HR) as Hk. simpl in *. subst k2. case_decide.
  - intros [= ->]. subst. eauto.
  - auto.
Qed.

Lemma Forall2_keys d e : Forall2 R d e → keys e = keys d.
Proof.
  unfold keys. induction 1 as [|x y d e HR _ IH]; [done|].
  rewrite !fmap_cons. by rewrite (R_keys _ _ HR), IH.
Qed.
End dict_Forall2.

(** Induction over a command tree, by the children of a command. *)
Lemma Command_children_ind (P : Command → Prop) :
  (∀ cmd, Forall (λ kc, P kc.2) (children cmd) → P cmd) →
  ∀ cmd, P cmd.
Proof.
  intros H cmd.
  induction cmd as [hp cb ps | hp cb ps cs IH] using Command_ind';
    apply H; simpl; [constructor | exact IH].
Qed.

(** ** The parameter loop *)

Lemma update_run a f h s :
  h !! a = Some s → update a f h = inr (tt, <[a := f s]> h).
Proof.
  intros Ha. unfold update. do 2 f_equal. apply list_eq. intros i.
  destruct (decide (a = i)) as [<-|Hne].
  - rewrite list_lookup_alter_eq, Ha, list_lookup_insert_eq; [done|].
    by eapply lookup_lt_Some.
  - by rewrite list_lookup_alter_ne, list_lookup_insert_ne.
Qed.

Lemma process_param_named a p h s :
  h !! a = Some s → param_type_named p = true →
  ∃ s' os args,
    process_param a p h = inr (tt, <[a := s']> h) ∧
    params_added s s' os args ∧
    Forall2 option_matches (filter is_option_like [p]) os ∧
    Forall (λ o, option_choices o = None) os ∧
    Forall2 argument_matches (filter is_positional [p]) args ∧
    Forall (λ x, argument_default x = PyNone) args.
Proof.
  intros Ha Hnamed. destruct p as [cls nm ty req dflt hlp].
  unfold param_type_named, param_classified, is_option_like, is_positional in Hnamed.
  unfold process_param, type_name_attr, bind. simpl in *.
  destruct cls; simpl in *.
  4: { exists s, [], []. rewrite list_insert_id by done.
       unfold params_added. rewrite !app_nil_r. repeat split; constructor. }
  all: destruct ty as [[tn|] cs|[tn|]|]; try done; simpl.
  all: erewrite update_run by done.
  1-4: eexists _, [_], []; split; [reflexivity|].
  5-6: eexists _, [], [_]; split; [reflexivity|].
  all: unfold params_added; simpl; rewrite ?app_nil_r.
  all: repeat split; repeat constructor; simpl; done.
Qed.

Lemma params_loop a ps : ∀ h s,
  h !! a = Some s → forallb param_type_named ps = true →
  ∃ s' os args,
    for_each (process_param a) ps h = inr (tt, <[a := s']> h) ∧
    params_added s s' os args ∧
    Forall2 option_matches (filter is_option_like ps) os ∧
    Forall (λ o, option_choices o = None) os ∧
    Forall2 argument_matches (filter is_positional ps) args ∧
    Forall (λ x, argument_default x = PyNone) args.
Proof.
  induction ps as [|p ps IH]; intros h s Ha Hnamed.
  - exists s, [], []. simpl. unfold ret. rewrite list_insert_id by done.
    unfold params_added. rewrite !app_nil_r. repeat split; constructor.
  - simpl in Hnamed. apply andb_prop in Hnamed as [Hp Hps].
    destruct (process_param_named a p h s Ha Hp)
      as (s1 & os1 & args1 & Hrun1 & Hadd1 & Ho1 & Hc1 & Ha1 & Hd1).
    assert (Ha' : <[a := s1]> h !! a = Some s1).
    { apply list_lookup_insert_eq. by eapply lookup_lt_Some. }
    destruct (IH _ s1 Ha' Hps)
      as (s' & os & args & Hrun & Hadd & Ho & Hc & Hargs & Hd).
    exists s', (os1 ++ os), (args1 ++ args).
    split; [|split; [|repeat split]].
    + simpl. unfold bind. rewrite Hrun1, Hrun.
      by rewrite list_insert_insert_eq.
    + destruct Hadd1 as (?&?&?&?&?&Hos1&Has1), Hadd as (?&?&?&?&?&Hos&Has).
      unfold params_added. rewrite !app_assoc, <- Hos1, <- Has1.
      repeat split; congruence.
    + change (p :: ps) with ([p] ++ ps). rewrite filter_app.
      by apply Forall2_app.
    + by apply Forall_app.
    + change (p :: ps) with ([p] ++ ps). rewrite filter_app.
      by apply Forall2_app.
    + by apply Forall_app.
Qed.

(** ** The recursive walk *)

Lemma process_command_unfold n cmd par :
  process_command n cmd par =
  (let* cmd_data := alloc
     {| name := n;
        docstring := help cmd;
        function := callback cmd;
        options := [];
        arguments := [];
        subcommands := [];
        parent := par |} in
   let* _ := for_each (process_param cmd_data) (params cmd) in
   let* _ := for_each (process_child cmd_data) (children cmd) in
   ret cmd_data).
Proof. destruct cmd; reflexivity. Qed.

Lemma all_commands_unfold ok cmd :
  all_commands ok cmd =
  ok cmd && forallb (λ kc, all_commands ok kc.2) (children cmd).
Proof. destruct cmd; reflexivity. Qed.

(** Objects outside [a, hi) do not matter to [mirrors]. *)
Lemma mirrors_frame cmd : ∀ hi h a n par hi' h',
  mirrors hi h a n cmd par →
  hi ≤ hi' →
  (∀ b, a ≤ b < hi → h' !! b = h !! b) →
  mirrors hi' h' a n cmd par.
Proof.
  induction cmd as [hp cb ps | hp cb ps cs IH] using Command_ind';
    intros hi h a n par hi' h' Hm Hle Hsame;
    inversion Hm as [a0 n0 cmd0 par0 s Ha Hs Hnode Hkids]; subst.
  - econstructor; [lia | rewrite Hsame; [done | lia] | done |].
    simpl in *. inversion Hkids. constructor.
  - econstructor; [lia | rewrite Hsame; [done | lia] | done |].
    simpl in *. eapply Forall2_with_Forall; [exact IH | exact Hkids |].
    intros [k c] [k' ca] IHc (Hk & Hlt & Hmc). simpl in *.
    split; [done | split; [done|]].
    eapply IHc; [exact Hmc | lia |]. intros b Hb. apply Hsame. lia.
Qed.

Lemma children_loop a cs :
  Forall (λ kc, builds kc.2) cs →
  forallb (λ kc, types_resolvable kc.2) cs = true →
  forallb (λ kc, keys_unique kc.2) cs = true →
  NoDup (keys cs) →
  ∀ h s,
    h !! a = Some s →
    (∀ k, k ∈ keys cs → k ∉ keys (subcommands s)) →
    ∃ h' s' subs,
      for_each (process_child a) cs h = inr (tt, h') ∧
      length h ≤ length h' ∧
      (∀ b, b < length h → b ≠ a → h' !! b = h !! b) ∧
      h' !! a = Some s' ∧
      children_added s s' subs ∧
      Forall2 (λ kc ka, kc.1 = ka.1 ∧ a < ka.2 ∧
                        mirrors (length h') h' ka.2 kc.1 kc.2 (Some a))
        cs subs.
Proof.
  induction cs as [|[k c] cs IH]; intros Hbuilds Htr Hku Hnd h s Ha Hfresh.
  - exists h, s, []. unfold children_added. rewrite app_nil_r.
    repeat split; by try constructor.
  - inversion_clear Hbuilds as [|? ? Hc Hcs]. simpl in *.
    apply andb_prop in Htr as [Htr Htrs]. apply andb_prop in Hku as [Hku Hkus].
    unfold keys in Hnd. rewrite ?fmap_cons in Hnd. simpl in Hnd.
    apply NoDup_cons in Hnd as [Hk Hnd]. simpl in Hk.
    assert (Hlt : a < length h) by (by eapply lookup_lt_Some).
    destruct (Hc k (Some a) h Htr Hku) as (h1 & Hrun1 & [Hlen1 Hpre1] & Hm1).
    assert (Ha1 : h1 !! a = Some s) by (by rewrite Hpre1).
    set (s2 := set_subcommand k (length h) s).
    assert (Ha2 : <[a := s2]> h1 !! a = Some s2).
    { apply list_lookup_insert_eq. lia. }
    assert (Hsub2 : subcommands s2 = subcommands s ++ [(k, length h)]).
    { simpl. apply dict_set_fresh, Hfresh. unfold keys. rewrite ?fmap_cons. simpl.
      apply elem_of_cons. by left. }
    destruct (IH Hcs Htrs Hkus Hnd _ s2 Ha2)
      as (h' & s' & subs & Hrun & Hlen & Hpre & Ha' & Hadd & Hkids).
    { intros k' Hk'. rewrite Hsub2, keys_app. apply not_elem_of_app. split.
      - apply Hfresh. unfold keys. rewrite ?fmap_cons. simpl. apply elem_of_cons.
        by right.
      - simpl. intros Hin%list_elem_of_singleton. by subst k'. }
    rewrite length_insert in Hlen, Hpre.
    exists h', s', ((k, length h) :: subs).
    split; [|split; [|split; [|split; [|split]]]].
    + unfold bind. simpl. unfold bind. rewrite Hrun1.
      by erewrite update_run by done.
    + lia.
    + intros b Hb Hne. rewrite Hpre by (done || lia).
      rewrite list_lookup_insert_ne by done. by apply Hpre1.
    + done.
    + destruct Hadd as (?&?&?&?&?&?&Hsubs). unfold children_added.
      rewrite Hsubs, Hsub2, <- app_assoc. simpl.
      repeat split; etrans; done.
    + constructor; [|done]. simpl. repeat split; [done|].
      eapply mirrors_frame; [exact Hm1 | lia |].
      intros b Hb. rewrite Hpre by lia.
      apply list_lookup_insert_ne. lia.
Qed.

Lemma builds_from_children cmd :
  Forall (λ kc, builds kc.2) (children cmd) → builds cmd.
Proof.
  intros Hkids n par h Htr Hku.
  unfold types_resolvable, keys_unique in Htr, Hku.
  rewrite all_commands_unfold in Htr, Hku.
  apply andb_prop in Htr as [Hps Htr]. apply andb_prop in Hku as [Hnd Hku].
  apply bool_decide_eq_true_1 in Hnd.
  rewrite process_command_unfold. unfold bind at 1, alloc.
  set (s0 := {| name := n; docstring := help cmd; function := callback cmd;
                options := []; arguments := []; subcommands := [];
                parent := par |}).
  assert (Ha0 : (h ++ [s0]) !! length h = Some s0) by (by apply list_lookup_middle).
  destruct (params_loop (length h) (params cmd) _ s0 Ha0 Hps)
    as (s1 & os & args & Hrun1 & Hadd1 & Hos & Hoc & Hargs & Hdef).
  destruct Hadd1 as (Hn1 & Hd1 & Hf1 & Hp1 & Hsub1 & Ho1 & Harg1).
  assert (Hlen0 : length (h ++ [s0]) = S (length h)).
  { rewrite length_app. simpl. lia. }
  assert (Ha1 : <[length h := s1]> (h ++ [s0]) !! length h = Some s1).
  { apply list_lookup_insert_eq. lia. }
  destruct (children_loop (length h) (children cmd) Hkids Htr Hku Hnd _ s1 Ha1)
    as (h' & s' & subs & Hrun & Hlen & Hpre & Ha' & Hadd & Hmirror).
  { intros k _. rewrite Hsub1. simpl. apply not_elem_of_nil. }
  destruct Hadd as (Hn & Hd & Hf & Hp & Ho & Harg & Hsub).
  rewrite length_insert, Hlen0 in Hlen, Hpre.
  rewrite Hsub1 in Hsub. simpl in Hsub.
  exists h'. split; [|split; [split|]].
  - unfold bind. rewrite Hrun1, Hrun. done.
  - lia.
  - intros b Hb. rewrite Hpre by lia.
    rewrite list_lookup_insert_ne by lia. by apply lookup_app_l.
  - apply mirrors_node with s'; [lia | done | | by rewrite Hsub].
    split.
    + by rewrite Hn, Hn1.
    + by rewrite Hd, Hd1.
    + by rewrite Hf, Hf1.
    + by rewrite Hp, Hp1.
    + by rewrite Ho, Ho1.
    + by rewrite Ho, Ho1.
    + by rewrite Harg, Harg1.
    + by rewrite Harg, Harg1.
    + rewrite Hsub. eapply Forall2_keys; [|exact Hmirror]. by intros ? ? [? _].
    + rewrite Hsub. erewrite Forall2_keys; [exact Hnd| |exact Hmirror].
      by intros ? ? [? _].
Qed.

Lemma process_command_builds cmd : builds cmd.
Proof.
  induction cmd as [hp cb ps | hp cb ps cs IH] using Command_ind';
    apply builds_from_children; [constructor | exact IH].
Qed.

(** ** The top-level loop *)

Lemma top_level_loop cs :
  forallb (λ kc, extractable kc.2) cs = true →
  NoDup (keys cs) →
  ∀ h data,
    (∀ k, k ∈ keys cs → k ∉ keys data) →
    ∃ h' tops,
      top_level cs data h = inr (data ++ tops, h') ∧
      length h ≤ length h' ∧
      (∀ b, b < length h → h' !! b = h !! b) ∧
      Forall2 (λ kc ka, kc.1 = ka.1 ∧ length h ≤ ka.2 ∧
                        mirrors (length h') h' ka.2 kc.1 kc.2 None)
        cs tops.
Proof.
  induction cs as [|[k c] cs IH]; intros Hex Hnd h data Hfresh.
  - exists h, []. rewrite app_nil_r. repeat split; by try constructor.
  - simpl in Hex. apply andb_prop in Hex as [Hc Hex].
    apply andb_prop in Hc as [Htr Hku].
    unfold keys in Hnd. rewrite ?fmap_cons in Hnd. simpl in Hnd.
    apply NoDup_cons in Hnd as [Hk Hnd].
    destruct (process_command_builds c k None h Htr Hku)
      as (h1 & Hrun1 & [Hlen1 Hpre1] & Hm1).
    assert (Hset : dict_set k (length h) data = data ++ [(k, length h)]).
    { apply dict_set_fresh, Hfresh. unfold keys. rewrite ?fmap_cons. simpl.
      apply elem_of_cons. by left. }
    destruct (IH Hex Hnd h1 (data ++ [(k, length h)]))
      as (h' & tops & Hrun & Hlen & Hpre & Htops).
    { intros k' Hk'. rewrite keys_app. apply not_elem_of_app. split.
      - apply Hfresh. unfold keys. rewrite ?fmap_cons. simpl.
        apply elem_of_cons. by right.
      - simpl. intros Hin%list_elem_of_singleton. by subst k'. }
    exists h', ((k, length h) :: tops). split; [|split; [|split]].
    + simpl. unfold bind. rewrite Hrun1, Hset, Hrun. by rewrite <- app_assoc.
    + lia.
    + intros b Hb. rewrite Hpre by lia. by apply Hpre1.
    + constructor.
      * simpl. repeat split; [done|].
        eapply mirrors_frame; [exact Hm1 | lia |]. intros b Hb.
        apply Hpre. lia.
      * eapply Forall2_impl; [exact Htops|].
        intros [k1 c1] [k2 a2] (? & ? & ?). simpl in *.
        repeat split; [done | lia | done].
Qed.

Lemma extractable_app_inv app :
  extractable_app app = true →
  NoDup (keys (children app)) ∧
  forallb (λ kc, extractable kc.2) (children app) = true ∧
  ∀ h, introspect_click_app app h = top_level (children app) [] h.
Proof.
  destruct app as [|hp cb ps cs]; [done|]. simpl. intros Hex.
  apply andb_prop in Hex as [Hnd Hex]. apply bool_decide_eq_true_1 in Hnd.
  done.
Qed.

(** The walk over an extractable application goes through, leaves the
    objects already in the store as they were, and returns a dict whose
    entries, in the order of [app.commands], are the roots of trees that
    mirror the commands. *)
Lemma introspect_builds app h0 :
  extractable_app app = true →
  ∃ data h,
    introspect_click_app app h0 = inr (data, h) ∧
    length h0 ≤ length h ∧
    (∀ b, b < length h0 → h !! b = h0 !! b) ∧
    Forall2 (λ kc ka, kc.1 = ka.1 ∧ length h0 ≤ ka.2 ∧
                      mirrors (length h) h ka.2 kc.1 kc.2 None)
      (children app) data.
Proof.
  intros (Hnd & Hex & Hrun)%extractable_app_inv.
  destruct (top_level_loop (children app) Hex Hnd h0 [])
    as (h & tops & Htop & Hlen & Hpre & Htops).
  { intros k _. apply not_elem_of_nil. }
  exists tops, h. rewrite Hrun. done.
Qed.

(** ** From the tree to its nodes *)

Lemma mirrors_lookup hi h a n cmd par :
  mirrors hi h a n cmd par →
  ∃ s, h !! a = Some s ∧ node_for n cmd par s ∧
       Forall2 (λ kc ka, kc.1 = ka.1 ∧
                         mirrors hi h ka.2 kc.1 kc.2 (Some a))
         (children cmd) (subcommands s).
Proof.
  inversion 1 as [a0 n0 cmd0 par0 s Ha Hs Hnode Hkids]; subst.
  exists s. split; [done|split; [done|]].
  eapply Forall2_impl; [exact Hkids|]. by intros ? ? (? & _ & ?).
Qed.

Section mirrors_dict.
Context (hi : nat) (h : Heap) (par : option addr).
Context (cs : list (string * Command)) (subs : list (CommandName * addr)).
Context (Hall : Forall2 (λ kc ka, kc.1 = ka.1 ∧
                                  mirrors hi h ka.2 kc.1 kc.2 par) cs subs).

Lemma mirrors_dict_get k c :
  dict_get k cs = Some c →
  ∃ ca, dict_get k subs = Some ca ∧ mirrors hi h ca k c par.
Proof.
  intros Hk.
  destruct (dict_get_Forall2 _ (λ x y HR, proj1 HR) _ _ _ _ Hall Hk)
    as (ca & Hka & _ & Hm).
  by exists ca.
Qed.

Lemma mirrors_dict_get_r k ca :
  dict_get k subs = Some ca →
  ∃ c, dict_get k cs = Some c ∧ mirrors hi h ca k c par.
Proof.
  intros Hk.
  destruct (dict_get_Forall2_r _ (λ x y HR, proj1 HR) _ _ _ _ Hall Hk)
    as (c & Hkc & _ & Hm).
  by exists c.
Qed.
End mirrors_dict.

(** A command found by names in the input has its schema at the same names
    in the output. *)
Lemma mirrors_find hi h path : ∀ cs subs par cmd,
  Forall2 (λ kc ka, kc.1 = ka.1 ∧ mirrors hi h ka.2 kc.1 kc.2 par) cs subs →
  find_command cs path = Some cmd →
  ∃ a n par',
    find_schema h subs path = Some a ∧
    mirrors hi h a n cmd par' ∧
    last path = Some n ∧
    (length path = 1 → par' = par).
Proof.
  induction path as [|k rest IH]; intros cs subs par cmd Hall Hfind; [done|].
  simpl in Hfind. destruct (dict_get k cs) as [c|] eqn:Hk; [|done].
  destruct (mirrors_dict_get _ _ _ _ _ Hall _ _ Hk) as (ca & Hka & Hm).
  destruct rest as [|k2 rest].
  - injection Hfind as <-. exists ca, k, par. simpl. by rewrite Hka.
  - destruct (mirrors_lookup _ _ _ _ _ _ Hm) as (s & Hs & _ & Hkids).
    destruct (IH _ _ _ _ Hkids Hfind) as (a & n & par' & Hfs & Hma & Hlast & _).
    exists a, n, par'. split; [|split; [done|split; [done|]]].
    + change (find_schema h subs (k :: k2 :: rest))
        with (match dict_get k subs with
              | None => None
              | Some a =>
                  match h !! a with
                  | None => None
                  | Some s => find_schema h (subcommands s) (k2 :: rest)
                  end
              end).
      by rewrite Hka, Hs.
    + simpl. lia.
Qed.

(** And the output has nothing else: a schema found by names in the output
    is the schema of the command at the same names in the input. *)
Lemma mirrors_find_schema hi h path : ∀ cs subs par a,
  Forall2 (λ kc ka, kc.1 = ka.1 ∧ mirrors hi h ka.2 kc.1 kc.2 par) cs subs →
  find_schema h subs path = Some a →
  ∃ cmd, find_command cs path = Some cmd.
Proof.
  induction path as [|k rest IH]; intros cs subs par a Hall Hfind; [done|].
  simpl in Hfind. destruct (dict_get k subs) as [ca|] eqn:Hk; [|done].
  destruct (mirrors_dict_get_r _ _ _ _ _ Hall _ _ Hk) as (c & Hkc & Hm).
  destruct rest as [|k2 rest].
  - exists c. simpl. by rewrite Hkc.
  - destruct (mirrors_lookup _ _ _ _ _ _ Hm) as (s & Hs & _ & Hkids).
    rewrite Hs in Hfind.
    destruct (IH _ _ _ _ Hkids Hfind) as (cmd & Hcmd).
    exists cmd.
    change (find_command cs (k :: k2 :: rest))
      with (match dict_get k cs with
            | None => None
            | Some c => find_command (children c) (k2 :: rest)
            end).
    by rewrite Hkc.
Qed.

(** Every node of the output is the root of a mirrored tree: under no
    parent when it is in the returned dict, under the node that lists it
    otherwise. *)
Lemma depth_in_mirrors hi h cs data a d :
  Forall2 (λ kc ka, kc.1 = ka.1 ∧ mirrors hi h ka.2 kc.1 kc.2 None) cs data →
  depth_in h data a d →
  ∃ n cmd par, mirrors hi h a n cmd par ∧ (d = 0 → par = None).
Proof.
  intros Hall. induction 1 as [k a Hin | b s k c d Hb IH Hs Hin].
  - apply list_elem_of_lookup in Hin as [i Hi].
    destruct (Forall2_lookup_r _ _ _ _ _ Hall Hi) as ([k' cmd] & _ & _ & Hm).
    simpl in Hm. eauto.
  - destruct IH as (n & cmd & par & Hm & _).
    destruct (mirrors_lookup _ _ _ _ _ _ Hm) as (s' & Hs' & _ & Hkids).
    assert (s' = s) as -> by congruence.
    apply list_elem_of_lookup in Hin as [i Hi].
    destruct (Forall2_lookup_r _ _ _ _ _ Hkids Hi) as ([k' cmd'] & _ & _ & Hmc).
    simpl in Hmc. exists k', cmd', (Some b). split; [done|lia].
Qed.

(** The parent link of every entry of a mirrored node's [subcommands]. *)
Lemma mirrors_child_link hi h b n cmd par s k c :
  mirrors hi h b n cmd par →
  h !! b = Some s →
  (k, c) ∈ subcommands s →
  ∃ sc, h !! c = Some sc ∧ parent sc = Some b ∧ name sc = k.
Proof.
  intros Hm Hs Hin.
  destruct (mirrors_lookup _ _ _ _ _ _ Hm) as (s' & Hs' & _ & Hkids).
  assert (s' = s) as -> by congruence.
  apply list_elem_of_lookup in Hin as [i Hi].
  destruct (Forall2_lookup_r _ _ _ _ _ Hkids Hi) as ([k' cmd'] & _ & Hk & Hmc).
  simpl in *. subst k'.
  destruct (mirrors_lookup _ _ _ _ _ _ Hmc) as (sc & Hsc & Hnode & _).
  exists sc. by destruct Hnode.
Qed.

Lemma introspect_mirrors app h0 :
  extractable_app app = true →
  ∃ data h,
    introspect_click_app app h0 = inr (data, h) ∧
    Forall2 (λ kc ka, kc.1 = ka.1 ∧ mirrors (length h) h ka.2 kc.1 kc.2 None)
      (children app) data.
Proof.
  intros Hex.
  destruct (introspect_builds app h0 Hex) as (data & h & Hrun & _ & _ & Hall).
  exists data, h. split; [done|].
  eapply Forall2_impl; [exact Hall|]. by intros ? ? (? & _ & ?).
Qed.

(** Every command of the input has a schema in the output, at the same
    names, that describes it. *)
Lemma introspect_at_every_command app h0 :
  extractable_app app = true →
  ∃ data h,
    introspect_click_app app h0 = inr (data, h) ∧
    at_every_command app h data (λ cmd s,
      ∃ n par, node_for n cmd par s).
Proof.
  intros Hex.
  destruct (introspect_mirrors app h0 Hex) as (data & h & Hrun & Hall).
  exists data, h. split; [done|]. intros path cmd Hfind.
  destruct (mirrors_find _ _ _ _ _ _ _ Hall Hfind)
    as (a & n & par & Hfs & Hm & _).
  destruct (mirrors_lookup _ _ _ _ _ _ Hm) as (s & Hs & Hnode & _).
  exists a, s. eauto.
Qed.

Lemma at_every_command_impl app h data (P Q : Command → CommandSchema → Prop) :
  (∀ cmd s, P cmd s → Q cmd s) →
  at_every_command app h data P → at_every_command app h data Q.
Proof.
  intros HPQ HP path cmd Hfind.
  destruct (HP path cmd Hfind) as (a & s & ? & ? & ?). exists a, s. auto.
Qed.

Lemma forallb_elem {A : Type} (f : A → bool) (l : list A) (x : A) :
  forallb f l = true → x ∈ l → f x = true.
Proof.
  intros Hall Hin. apply Is_true_true_2, forallb_True in Hall.
  apply Is_true_true_1. by eapply Forall_forall in Hall.
Qed.

(** What holds of all the commands of a dict holds of those found in it. *)
Lemma find_command_all ok path : ∀ cs cmd,
  forallb (λ kc, all_commands ok kc.2) cs = true →
  find_command cs path = Some cmd →
  all_commands ok cmd = true.
Proof.
  induction path as [|k rest IH]; intros cs cmd Hall Hfind; [done|].
  simpl in Hfind. destruct (dict_get k cs) as [c|] eqn:Hk; [|done].
  apply dict_get_Some_elem in Hk.
  pose proof (forallb_elem _ _ _ Hall Hk) as Hc. simpl in Hc.
  destruct rest as [|k2 rest]; [congruence|].
  rewrite all_commands_unfold in Hc. apply andb_prop in Hc as [_ Hc]. eauto.
Qed.

Lemma valid_commands_inv (cs : list (string * Command)) :
  forallb (λ kc, valid_command kc.2) cs = true →
  forallb (λ kc, extractable kc.2) cs = true ∧
  forallb (λ kc, params_classified kc.2) cs = true.
Proof.
  induction cs as [|[k c] cs IH]; [done|]. simpl. intros Hv.
  apply andb_prop in Hv as [Hc Hv]. unfold valid_command in Hc.
  apply andb_prop in Hc as [Hc Hku]. apply andb_prop in Hc as [Htr Hcl].
  destruct (IH Hv) as [-> ->]. unfold extractable. by rewrite Htr, Hku, Hcl.
Qed.

Lemma valid_app_inv app :
  valid_app app = true →
  extractable_app app = true ∧
  forallb (λ kc, params_classified kc.2) (children app) = true.
Proof.
  destruct app as [|hp cb ps cs]; [done|]. simpl. intros Hv.
  apply andb_prop in Hv as [Hnd Hv]. rewrite Hnd. simpl.
  by apply valid_commands_inv.
Qed.

Lemma classified_exclusive p :
  param_classified p = true → is_option_like p = negb (is_positional p).
Proof.
  unfold param_classified, is_option_like, is_positional.
  by destruct (param_class p).
Qed.

Lemma classified_partition_length (ps : list Param) :
  forallb param_classified ps = true →
  length (filter is_option_like ps) + length (filter is_positional ps)
  = length ps.
Proof.
  induction ps as [|p ps IH]; [done|]. simpl. intros Hall.
  apply andb_prop in Hall as [Hp Hps]. specialize (IH Hps).
  rewrite !filter_cons. apply classified_exclusive in Hp.
  destruct (is_positional p); simpl in Hp; rewrite Hp;
    repeat case_decide; simpl in *; try done; lia.
Qed.

(** ** Parent links and the paths they give *)

Lemma parent_links_of_mirrors hi h cs data :
  Forall2 (λ kc ka, kc.1 = ka.1 ∧ mirrors hi h ka.2 kc.1 kc.2 None) cs data →
  parent_links h data.
Proof.
  intros Hall. split.
  - intros k a Hin. apply list_elem_of_lookup in Hin as [i Hi].
    destruct (Forall2_lookup_r _ _ _ _ _ Hall Hi) as ([k' cmd] & _ & Hk & Hm).
    simpl in *. subst k'.
    destruct (mirrors_lookup _ _ _ _ _ _ Hm) as (s & Hs & Hnode & _).
    exists s. by destruct Hnode.
  - intros b [d Hd].
    destruct (depth_in_mirrors _ _ _ _ _ _ Hall Hd) as (n & cmd & par & Hm & _).
    destruct (mirrors_lookup _ _ _ _ _ _ Hm) as (s & Hs & Hnode & _).
    exists s. split; [done|]. split; [by destruct Hnode|].
    intros k c Hin. by eapply mirrors_child_link.
Qed.

Lemma path_loop_acc h fuel : ∀ node acc,
  path_loop fuel h node acc = (acc ++.) <$> path_loop fuel h node [].
Proof.
  induction fuel as [|fuel IH]; intros node acc; [done|]. simpl.
  destruct (h !! node) as [c|]; [|done].
  destruct (parent c) as [p|]; [|simpl; by rewrite app_nil_r].
  rewrite (IH p (acc ++ [p])), (IH p [p]).
  destruct (path_loop fuel h p []) as [l|]; [|done]. simpl.
  by rewrite <- app_assoc.
Qed.

Lemma path_from_root_top h a s fuel :
  h !! a = Some s → parent s = None →
  path_from_root (S fuel) h a = Some [a].
Proof. intros Ha Hp. unfold path_from_root. simpl. by rewrite Ha, Hp. Qed.

Lemma path_from_root_sub h c sc b fuel :
  h !! c = Some sc → parent sc = Some b →
  path_from_root (S fuel) h c = (.++ [c]) <$> path_from_root fuel h b.
Proof.
  intros Hc Hp. unfold path_from_root. simpl. rewrite Hc, Hp.
  rewrite (path_loop_acc h fuel b [c; b]), (path_loop_acc h fuel b [b]).
  destruct (path_loop fuel h b []) as [l|]; [|done]. simpl.
  by rewrite !reverse_cons.
Qed.

Lemma rooted_paths_of_links h data :
  parent_links h data → rooted_paths h data.
Proof.
  intros [Htop Hsub] a d Hd.
  induction Hd as [k a Hin | b s k c d Hb IH Hs Hin]; intros fuel Hfuel.
  - destruct (Htop k a Hin) as (s & Hs & Hp & _).
    destruct fuel as [|fuel]; [lia|]. exists [a].
    split; [by eapply path_from_root_top|]. split; [done|].
    split; [by exists a, s|]. split; [done|].
    intros i p c _ Hc. by destruct i.
  - destruct (Hsub b (ex_intro _ d Hb)) as (s' & Hs' & _ & Hlink).
    assert (s' = s) as -> by congruence.
    destruct (Hlink k c Hin) as (sc & Hsc & Hpar & Hname).
    destruct fuel as [|fuel]; [lia|].
    destruct (IH fuel ltac:(lia))
      as (path & Hrun & Hlen & (r & sr & Hhead & Hr & Hroot) & Hlast & Hlinked).
    exists (path ++ [c]).
    split; [by erewrite path_from_root_sub, Hrun by done|].
    split; [rewrite length_app; simpl; lia|].
    split; [|split; [apply last_snoc|]].
    + exists r, sr. by destruct path.
    + intros i p c' Hp Hc'.
      destruct (decide (S i < length path)) as [Hlt|Hge].
      * rewrite lookup_app_l in Hp by lia. rewrite lookup_app_l in Hc' by lia.
        eauto.
      * apply last_Some in Hlast as [front ->].
        rewrite length_app in *. simpl in *.
        assert (i = length front) as ->.
        { apply lookup_lt_Some in Hc'. rewrite !length_app in Hc'.
          simpl in Hc'. lia. }
        rewrite <- app_assoc in Hp. simpl in Hp.
        rewrite list_lookup_middle in Hp by done. injection Hp as <-.
        replace (S (length front)) with (length (front ++ [b])) in Hc'
          by (rewrite length_app; simpl; lia).
        rewrite list_lookup_middle in Hc' by done. injection Hc' as <-.
        exists s, sc. by rewrite Hname.
Qed.

(** ** Loops in general *)

(** A loop fails only with what its body fails with. *)
Lemma for_each_error {A : Type} (f : A → Run unit) (l : list A)
    (E : PyError → Prop) :
  (∀ x h e, x ∈ l → f x h = inl e → E e) →
  ∀ h e, for_each f l h = inl e → E e.
Proof.
  induction l as [|x l IH]; intros Hf h e; [done|]. simpl. unfold bind.
  destruct (f x h) as [e'|[u h']] eqn:Hx.
  - intros [= <-]. eapply Hf; [|exact Hx]. apply elem_of_cons. by left.
  - apply IH. intros y h2 e2 Hy. apply Hf, elem_of_cons. by right.
Qed.

(** A loop fails when its body fails on some element, in any store. *)
Lemma for_each_fails {A : Type} (f : A → Run unit) (l : list A) :
  Exists (λ x, ∀ h, ∃ e, f x h = inl e) l →
  ∀ h, ∃ e, for_each f l h = inl e.
Proof.
  induction 1 as [x l Hx | x l _ IH]; intros h; simpl; unfold bind.
  - destruct (Hx h) as [e ->]. eauto.
  - destruct (f x h) as [e|[u h']]; eauto.
Qed.

Lemma forallb_false_Exists {A : Type} (f : A → bool) (l : list A) :
  forallb f l = false → Exists (λ x, f x = false) l.
Proof.
  induction l as [|x l IH]; [done|]. simpl.
  destruct (f x) eqn:Hx; simpl; [|by left]. intros Hl. right. auto.
Qed.

(** ** Failures of the walk *)

Lemma process_param_error a p h e :
  process_param a p h = inl e → read_failure e.
Proof.
  unfold process_param, type_name_attr, bind, raise, ret, update, read_failure.
  destruct (param_class p), (param_type p) as [[tn|] cs|[tn|]|]; simpl;
    intros He; try discriminate; injection He as <-; auto.
Qed.

Lemma process_param_fails a p h :
  param_type_named p = false → ∃ e, process_param a p h = inl e.
Proof.
  unfold param_type_named, param_classified, is_option_like, is_positional.
  unfold process_param, type_name_attr, bind, raise.
  destruct (param_class p), (param_type p) as [[tn|] cs|[tn|]|]; simpl;
    try done; eauto.
Qed.

Lemma process_command_error cmd : ∀ n par h e,
  process_command n cmd par h = inl e → read_failure e.
Proof.
  induction cmd as [hp cb ps | hp cb ps cs IH] using Command_ind';
    intros n par h e; rewrite process_command_unfold; unfold bind, alloc;
    simpl.
  - destruct (for_each _ ps _) as [e'|[u h']] eqn:Hps; [|done].
    intros [= <-]. eapply (for_each_error _ _ read_failure); [|exact Hps].
    intros p h2 e2 _. apply process_param_error.
  - destruct (for_each _ ps _) as [e'|[u h']] eqn:Hps.
    { intros [= <-]. eapply (for_each_error _ _ read_failure); [|exact Hps].
      intros p h2 e2 _. apply process_param_error. }
    destruct (for_each _ cs _) as [e'|[u' h'']] eqn:Hcs; [|done].
    intros [= <-]. eapply (for_each_error _ _ read_failure); [|exact Hcs].
    intros [k c] h2 e2 Hin. simpl. unfold bind.
    destruct (process_command k c _ h2) as [e3|[child h3]] eqn:Hc; [|done].
    intros [= <-]. eapply Forall_forall in IH; [|exact Hin]. by eapply IH.
Qed.

Lemma process_command_fails cmd :
  types_resolvable cmd = false →
  ∀ n par h, ∃ e, process_command n cmd par h = inl e.
Proof.
  induction cmd as [hp cb ps | hp cb ps cs IH] using Command_ind';
    intros Htr n par h; unfold types_resolvable in Htr;
    rewrite all_commands_unfold in Htr; simpl in Htr;
    rewrite process_command_unfold; unfold bind, alloc; simpl.
  - rewrite andb_true_r in Htr.
    destruct (for_each_fails (process_param (length h)) ps) with (h := h ++
      [mkCommandSchema n cb hp [] [] [] par]) as [e ->]; [|eauto].
    eapply Exists_impl; [by apply forallb_false_Exists|].
    intros p Hp h2. by apply process_param_fails.
  - destruct (for_each _ ps _) as [e'|[u h']] eqn:Hps; [eauto|].
    destruct (forallb param_type_named ps) eqn:Hnamed.
    2: { destruct (for_each_fails (process_param (length h)) ps)
           with (h := h ++ [mkCommandSchema n cb hp [] [] [] par])
           as [e He]; [|congruence].
         eapply Exists_impl; [by apply forallb_false_Exists|].
         intros p Hp h2. by apply process_param_fails. }
    simpl in Htr.
    destruct (for_each_fails (process_child (length h)) cs) with (h := h')
      as [e ->]; [|eauto].
    apply forallb_false_Exists in Htr. apply Exists_exists in Htr.
    destruct Htr as ([k c] & Hin & Hc). apply Exists_exists.
    exists (k, c). split; [done|]. intros h2. simpl. unfold bind.
    eapply Forall_forall in IH; [|exact Hin]. simpl in IH.
    destruct (IH Hc k (Some (length h)) h2) as [e ->]. eauto.
Qed.

Lemma top_level_error cs : ∀ data h e,
  top_level cs data h = inl e → read_failure e.
Proof.
  induction cs as [|[k c] cs IH]; intros data h e; [done|]. simpl.
  unfold bind.
  destruct (process_command k c None h) as [e'|[a h']] eqn:Hc; [|apply IH].
  intros [= <-]. by eapply process_command_error.
Qed.

Lemma top_level_fails cs :
  forallb (λ kc, types_resolvable kc.2) cs = false →
  ∀ data h, ∃ e, top_level cs data h = inl e.
Proof.
  induction cs as [|[k c] cs IH]; [done|]. simpl. intros Htr data h.
  unfold bind.
  destruct (process_command k c None h) as [e'|[a h']] eqn:Hc; [eauto|].
  destruct (types_resolvable c) eqn:Hres; [by apply IH|].
  destruct (process_command_fails c Hres k None h) as [e He]. congruence.
Qed.

(** ** The shape of the output *)

Lemma nesting_mirrored_of_mirrors hi app h data :
  Forall2 (λ kc ka, kc.1 = ka.1 ∧ mirrors hi h ka.2 kc.1 kc.2 None)
    (children app) data →
  nesting_mirrored app h data.
Proof.
  intros Hall. split; [|split; [|split]].
  - eapply Forall2_keys; [|exact Hall]. by intros ? ? [? _].
  - intros k a Hk.
    destruct (mirrors_dict_get_r _ _ _ _ _ Hall _ _ Hk) as (c & _ & Hm).
    destruct (mirrors_lookup _ _ _ _ _ _ Hm) as (s & Hs & Hnode & _).
    exists s. by destruct Hnode.
  - intros path [a Ha]. by eapply mirrors_find_schema.
  - intros path cmd Hfind.
    destruct (mirrors_find _ _ _ _ _ _ _ Hall Hfind)
      as (a & n & par & Hfs & Hm & _).
    destruct (mirrors_lookup _ _ _ _ _ _ Hm) as (s & Hs & Hnode & _).
    exists a, s. destruct Hnode as [_ Hd Hf _ _ _ _ _ Hkeys _].
    repeat split; try done.
    intros Hnone. rewrite Hnone in Hkeys. by apply fmap_nil_inv in Hkeys.
Qed.

Lemma process_param_succeeds a p h :
  param_type_named p = true → ∃ h', process_param a p h = inr (tt, h').
Proof.
  unfold param_type_named, param_classified, is_option_like, is_positional.
  unfold process_param, type_name_attr, bind, raise, ret, update.
  destruct (param_class p), (param_type p) as [[tn|] cs|[tn|]|]; simpl;
    eauto; done.
Qed.

Lemma for_each_succeeds {A : Type} (f : A → Run unit) (l : list A) :
  Forall (λ x, ∀ h, ∃ h', f x h = inr (tt, h')) l →
  ∀ h, ∃ h', for_each f l h = inr (tt, h').
Proof.
  induction 1 as [|x l Hx _ IH]; intros h; simpl; [by exists h|].
  unfold bind. destruct (Hx h) as [h1 ->]. apply IH.
Qed.

Lemma process_command_succeeds cmd :
  types_resolvable cmd = true →
  ∀ n par h, ∃ h', process_command n cmd par h = inr (length h, h').
Proof.
  induction cmd as [cmd IH] using Command_children_ind.
  intros Htr n par h. unfold types_resolvable in Htr.
  rewrite all_commands_unfold in Htr. apply andb_prop in Htr as [Hps Hcs].
  rewrite process_command_unfold. unfold bind, alloc.
  destruct (for_each_succeeds (process_param (length h)) (params cmd))
    with (h := h ++ [mkCommandSchema n (callback cmd) (help cmd) [] [] [] par])
    as [h1 ->].
  { apply Forall_forall. intros p Hp h2. apply process_param_succeeds.
    by eapply forallb_elem. }
  destruct (for_each_succeeds (process_child (length h)) (children cmd))
    with (h := h1) as [h2 ->]; [|by exists h2].
  apply Forall_forall. intros [k c] Hin h3. simpl. unfold bind.
  eapply Forall_forall in IH; [|exact Hin]. simpl in IH.
  destruct (IH (forallb_elem _ _ _ Hcs Hin) k (Some (length h)) h3)
    as [h4 ->].
  unfold update. eauto.
Qed.

(** ** The first read that fails *)

Lemma param_failure_named p :
  param_failure p = None ↔ param_type_named p = true.
Proof.
  unfold param_failure, param_type_named.
  destruct (param_classified p), (param_type p) as [[tn|] cs|[tn|]|]; simpl;
    split; done.
Qed.

Lemma first_of_None {A : Type} (failure : A → option string) (l : list A) :
  first_of failure l = None ↔ Forall (λ x, failure x = None) l.
Proof.
  induction l as [|x l IH]; simpl; [by split|].
  destruct (failure x) eqn:Hx.
  - split; [done|]. intros Hall. inversion_clear Hall. congruence.
  - rewrite IH. split; [by constructor|]. intros Hall. by inversion_clear Hall.
Qed.

Lemma first_failure_unfold cmd :
  first_failure cmd =
  match first_of param_failure (params cmd) with
  | Some attr => Some attr
  | None => first_of (λ kc, first_failure kc.2) (children cmd)
  end.
Proof. destruct cmd; simpl; [|done]. by destruct (first_of _ _). Qed.

Lemma first_of_forallb {A : Type} (failure : A → option string)
    (ok : A → bool) (l : list A) :
  Forall (λ x, failure x = None ↔ ok x = true) l →
  first_of failure l = None ↔ forallb ok l = true.
Proof.
  induction 1 as [|x l Hx _ IH]; simpl; [done|].
  rewrite andb_true_iff, <- Hx, <- IH.
  destruct (failure x); split; try done; by intros [? ?].
Qed.

(** No read fails exactly when every type name can be read. *)
Lemma first_failure_resolvable cmd :
  first_failure cmd = None ↔ types_resolvable cmd = true.
Proof.
  induction cmd as [cmd IH] using Command_children_ind.
  rewrite first_failure_unfold. unfold types_resolvable.
  rewrite all_commands_unfold, andb_true_iff.
  rewrite <- (first_of_forallb param_failure param_type_named)
    by (apply Forall_forall; intros p _; apply param_failure_named).
  rewrite <- (first_of_forallb (λ kc, first_failure kc.2)) by exact IH.
  destruct (first_of param_failure (params cmd)); split; try done;
    by intros [? ?].
Qed.

Lemma process_param_failure a p h attr :
  param_failure p = Some attr →
  process_param a p h = inl (AttributeError attr).
Proof.
  unfold param_failure, param_classified, is_option_like, is_positional.
  unfold process_param, type_name_attr, bind, raise.
  destruct (param_class p), (param_type p) as [[tn|] cs|[tn|]|]; simpl;
    try done; by intros [= <-].
Qed.

(** A loop whose body goes through where there is no failure, and fails
    where there is one, fails at the first one. *)
Lemma for_each_first_failure {A : Type} (f : A → Run unit)
    (failure : A → option string) (l : list A) :
  Forall (λ x, match failure x with
               | None => ∀ h, ∃ h', f x h = inr (tt, h')
               | Some attr => ∀ h, f x h = inl (AttributeError attr)
               end) l →
  ∀ attr h, first_of failure l = Some attr →
    for_each f l h = inl (AttributeError attr).
Proof.
  induction 1 as [|x l Hx _ IH]; intros attr h; [done|]. simpl. unfold bind.
  destruct (failure x) as [attr'|].
  - intros [= <-]. by rewrite Hx.
  - destruct (Hx h) as [h' ->]. apply IH.
Qed.

Lemma params_loop_first_failure a ps : ∀ attr h,
  first_of param_failure ps = Some attr →
  for_each (process_param a) ps h = inl (AttributeError attr).
Proof.
  apply for_each_first_failure, Forall_forall. intros p _.
  destruct (param_failure p) as [attr|] eqn:Hp.
  - intros h. by apply process_param_failure.
  - intros h. by apply process_param_succeeds, param_failure_named.
Qed.

(** The walk fails at the first read that fails. *)
Lemma process_command_first_failure cmd : ∀ attr n par h,
  first_failure cmd = Some attr →
  process_command n cmd par h = inl (AttributeError attr).
Proof.
  induction cmd as [cmd IH] using Command_children_ind.
  intros attr n par h. rewrite first_failure_unfold, process_command_unfold.
  unfold bind, alloc.
  destruct (first_of param_failure (params cmd)) as [attr'|] eqn:Hps.
  - intros [= <-]. by erewrite params_loop_first_failure.
  - intros Hcs.
    destruct (for_each_succeeds (process_param (length h)) (params cmd))
      with (h := h ++ [mkCommandSchema n (callback cmd) (help cmd) [] [] []
                         par])
      as [h1 ->].
    { apply first_of_None in Hps. eapply Forall_impl; [exact Hps|].
      intros p Hp h2. by apply process_param_succeeds, param_failure_named. }
    erewrite (for_each_first_failure (process_child (length h))
                (λ kc, first_failure kc.2)); [done| |exact Hcs].
    eapply Forall_impl; [exact IH|]. intros [k c] IHc. simpl in *.
    destruct (first_failure c) as [attr'|] eqn:Hc; intros h2; unfold bind.
    + by erewrite IHc.
    + apply first_failure_resolvable in Hc.
      destruct (process_command_succeeds c Hc k (Some (length h)) h2)
        as [h3 ->].
      unfold update. eauto.
Qed.

Lemma top_level_first_failure cs : ∀ attr data h,
  first_of (λ kc, first_failure kc.2) cs = Some attr →
  top_level cs data h = inl (AttributeError attr).
Proof.
  induction cs as [|[k c] cs IH]; intros attr data h; [done|]. simpl.
  unfold bind. destruct (first_failure c) as [attr'|] eqn:Hc.
  - intros [= <-]. by erewrite process_command_first_failure.
  - apply first_failure_resolvable in Hc.
    destruct (process_command_succeeds c Hc k None h) as [h1 ->]. apply IH.
Qed.

Lemma complete_tree_of_mirrors hi app h data :
  Forall2 (λ kc ka, kc.1 = ka.1 ∧ mirrors hi h ka.2 kc.1 kc.2 None)
    (children app) data →
  complete_tree app h data.
Proof.
  intros Hall. split; [by eapply nesting_mirrored_of_mirrors|].
  split; [by eapply parent_links_of_mirrors|].
  intros path cmd Hfind.
  destruct (mirrors_find _ _ _ _ _ _ _ Hall Hfind)
    as (a & n & par & Hfs & Hm & _).
  destruct (mirrors_lookup _ _ _ _ _ _ Hm) as (s & Hs & Hnode & _).
  exists a, s. split; [done|]. split; [done|]. by destruct Hnode.
Qed.

(** ** The call stack *)

Lemma process_object_unfold limit objects n r par :
  process_object (S limit) objects n r par =
  (let* cmd_data := alloc
     {| name := n;
        docstring := object_help (objects r);
        function := object_callback (objects r);
        options := [];
        arguments := [];
        subcommands := [];
        parent := par |} in
   let* _ := for_each (process_param cmd_data) (object_params (objects r)) in
   let* _ :=
     match object_commands (objects r) with
     | Some commands =>
         for_each (process_child_object limit objects cmd_data) commands
     | None => ret tt
     end in
   ret cmd_data).
Proof. reflexivity. Qed.

Lemma command_depth_child cmd k c :
  (k, c) ∈ children cmd → command_depth c < command_depth cmd.
Proof.
  destruct cmd as [|hp cb ps cs]; simpl; [by intros ?%elem_of_nil|].
  induction cs as [|[k' c'] cs IH]; [by intros ?%elem_of_nil|].
  intros [[= -> ->]|Hin]%elem_of_cons; simpl; [lia|].
  specialize (IH Hin). lia.
Qed.

(** Two loops over lists whose elements are treated alike. *)
Lemma for_each_Forall2 {A B : Type} (f : A → Run unit) (g : B → Run unit)
    (l : list A) (k : list B) :
  Forall2 (λ x y, ∀ h, f x h = g y h) l k →
  ∀ h, for_each f l h = for_each g k h.
Proof.
  induction 1 as [|x y l k Hxy _ IH]; intros h; [done|]. simpl. unfold bind.
  rewrite Hxy. destruct (g y h) as [e|[u h']]; [done|]. apply IH.
Qed.

(** On objects that form a tree, with more frames than the tree is deep,
    the walk over the objects is the walk over the tree. *)
Lemma process_object_enough objects cmd : ∀ r limit n par h,
  unfolds_to objects r cmd →
  command_depth cmd < limit →
  process_object limit objects n r par h = process_command n cmd par h.
Proof.
  induction cmd as [hp cb ps | hp cb ps cs IH] using Command_ind';
    intros r limit n par h Hunf Hdepth; (destruct limit as [|limit]; [lia|]);
    rewrite process_object_unfold, process_command_unfold;
    inversion Hunf as [r0 hp0 cb0 ps0 Hobj | r0 hp0 cb0 ps0 refs cs0 Hobj Hall];
    subst; rewrite Hobj; [done|].
  unfold bind, alloc. simpl.
  destruct (for_each _ ps _) as [e|[u h']]; [done|].
  rewrite (for_each_Forall2 (process_child_object limit objects (length h))
             (process_child (length h)) refs cs); [done|].
  assert (IH' : Forall (λ kc, ∀ r n par h,
             unfolds_to objects r kc.2 →
             process_object limit objects n r par h
             = process_command n kc.2 par h) cs).
  { apply Forall_forall. intros [k c] Hin r' n' par' h2 Hc.
    eapply Forall_forall in IH; [|exact Hin]. apply IH; [done|].
    pose proof (command_depth_child (Group hp cb ps cs) k c Hin) as Hlt.
    simpl. lia. }
  apply Forall2_flip. eapply Forall2_with_Forall; [exact IH'| |].
  { apply Forall2_flip. exact Hall. }
  intros [k c] [k' r'] IHc [Hk Hc] h2. simpl in *. subst k'.
  unfold bind. by rewrite IHc.
Qed.

(** On the group that lists itself the walk uses up any call stack. *)
Lemma process_object_loops limit : ∀ n par h,
  process_object limit looping_objects n 0 par h = inl RecursionError.
Proof.
  induction limit as [|limit IH]; intros n par h; [done|].
  rewrite process_object_unfold. unfold bind, alloc. simpl. unfold bind.
  by rewrite IH.
Qed.

Lemma forallb_extractable (cs : list (string * Command)) :
  forallb (λ kc, types_resolvable kc.2) cs = true →
  forallb (λ kc, keys_unique kc.2) cs = true →
  forallb (λ kc, extractable kc.2) cs = true.
Proof.
  induction cs as [|[k c] cs IH]; [done|]. simpl. intros Htr Hku.
  apply andb_prop in Htr as [Hc Htr]. apply andb_prop in Hku as [Hkc Hku].
  unfold extractable. rewrite Hc, Hkc. simpl. auto.
Qed.

(** ** Tactics for the claims *)

(** Run the walk of the goal on its extractable application and give the
    returned dict and the final store as the witnesses; [Hall] names the
    trees that mirror the commands. *)
Ltac run_walk Hex data h Hall :=
  lazymatch goal with
  | |- ∃ _ _, introspect_click_app ?app ?h0 = _ ∧ _ =>
      let Hrun := fresh "Hrun" in
      destruct (introspect_mirrors app h0 Hex) as (data & h & Hrun & Hall);
      exists data, h; split; [exact Hrun|]
  end.

(** The same, with [Hall] naming what holds at every command. *)
Ltac run_walk_nodes Hex data h Hall :=
  lazymatch goal with
  | |- ∃ _ _, introspect_click_app ?app ?h0 = _ ∧ _ =>
      let Hrun := fresh "Hrun" in
      destruct (introspect_at_every_command app h0 Hex)
        as (data & h & Hrun & Hall);
      exists data, h; split; [exact Hrun|]
  end.

(** * The claims *)

(** C1.  For every valid application (extractable is enough), the
    extraction goes through, the schemas of the returned dict have
    [parent] absent, and every schema reachable through the [subcommands]
    of the output has, for every name [k] it lists, a child
    [subcommands[k]] whose [parent] is that very schema and whose [name]
    is [k]; no name is listed twice. *)
Theorem parent_links_round_trip app h0 :
  extractable_app app = true →
  ∃ data h,
    introspect_click_app app h0 = inr (data, h) ∧ parent_links h data.
Proof.
  intros Hex.
  run_walk Hex data h Hall. by eapply parent_links_of_mirrors.
Qed.

Lemma parent_links_round_trip_witness :
  extractable_app demo_app = true ∧
  ∃ data h,
    introspect_click_app demo_app [] = inr (data, h) ∧ parent_links h data.
Proof.
  split; [reflexivity|].
  apply (parent_links_round_trip demo_app []). reflexivity.
Defined.

(** C2.  For every command of a valid application, the options and the
    arguments of its schema are together as many as the parameters
    declared on the command: each parameter is either option-like, and
    then has its schema among the options, or positional, and then has its
    schema among the arguments, never both and never neither. *)
Theorem options_and_arguments_partition_params app h0 :
  valid_app app = true →
  ∃ data h,
    introspect_click_app app h0 = inr (data, h) ∧
    at_every_command app h data params_partitioned.
Proof.
  intros (Hex & Hcl)%valid_app_inv.
  run_walk_nodes Hex data h Hall. intros path cmd Hfind.
  destruct (Hall path cmd Hfind) as (a & s & Hfs & Hs & n & par & Hnode).
  exists a, s. split; [done|]. split; [done|].
  pose proof (find_command_all _ _ _ _ Hcl Hfind) as Hcmd.
  unfold params_classified in Hcmd. rewrite all_commands_unfold in Hcmd.
  apply andb_prop in Hcmd as [Hps _].
  destruct Hnode as [_ _ _ _ Hos _ Hargs _ _ _].
  split; [|split; [done|split; [done|]]].
  - rewrite <- (Forall2_length _ _ _ Hos), <- (Forall2_length _ _ _ Hargs).
    by apply classified_partition_length.
  - intros p Hp. apply classified_exclusive. by eapply forallb_elem.
Qed.

Lemma options_and_arguments_partition_params_witness :
  valid_app demo_app = true ∧
  ∃ data h,
    introspect_click_app demo_app [] = inr (data, h) ∧
    at_every_command demo_app h data params_partitioned.
Proof.
  split; [reflexivity|].
  apply (options_and_arguments_partition_params demo_app []). reflexivity.
Defined.

(** C3.  For every positional parameter of every command of a valid
    application (extractable is enough), the [choices] of its argument
    schema are present if and only if the type of the parameter is a
    [Choice], and are then the declared choices, in the declared order. *)
Theorem argument_choices_iff_choice_type app h0 :
  extractable_app app = true →
  ∃ data h,
    introspect_click_app app h0 = inr (data, h) ∧
    at_every_command app h data choices_extracted.
Proof.
  intros Hex.
  run_walk_nodes Hex data h Hall.
  eapply at_every_command_impl; [|exact Hall].
  intros cmd s (n & par & Hnode). destruct Hnode as [_ _ _ _ _ _ Hargs _ _ _].
  eapply Forall2_impl; [exact Hargs|].
  intros p a (Hname & _ & _ & Hchoices). rewrite Hchoices.
  split; [done|]. destruct (param_type p) as [tn cs|tn|]; simpl.
  - split; [|by intros ? ? [= _ ->]]. split; eauto.
  - split; [|done]. split; [by intros [? ?]|by intros (? & ? & ?)].
  - split; [|done]. split; [by intros [? ?]|by intros (? & ? & ?)].
Qed.

Lemma argument_choices_iff_choice_type_witness :
  extractable_app demo_app = true ∧
  ∃ data h,
    introspect_click_app demo_app [] = inr (data, h) ∧
    at_every_command demo_app h data choices_extracted.
Proof.
  split; [reflexivity|].
  apply (argument_choices_iff_choice_type demo_app []). reflexivity.
Defined.

(** C4.  For every command of a valid application (extractable is
    enough), each parameter that is a [click.Option] or a group-like
    object has an [OptionSchema] among the options of the schema, with the
    parameter's name, type name, required flag, default and help; the
    arguments of the schema come from the positional parameters only. *)
Theorem option_like_params_become_options app h0 :
  extractable_app app = true →
  ∃ data h,
    introspect_click_app app h0 = inr (data, h) ∧
    at_every_command app h data options_extracted.
Proof.
  intros Hex.
  run_walk_nodes Hex data h Hall.
  eapply at_every_command_impl; [|exact Hall].
  intros cmd s (n & par & Hnode). destruct Hnode as [_ _ _ _ Hos _ Hargs _ _ _].
  split; [done|]. symmetry. by eapply Forall2_length.
Qed.

Lemma option_like_params_become_options_witness :
  extractable_app demo_app = true ∧
  ∃ data h,
    introspect_click_app demo_app [] = inr (data, h) ∧
    at_every_command demo_app h data options_extracted.
Proof.
  split; [reflexivity|].
  apply (option_like_params_become_options demo_app []). reflexivity.
Defined.

(** C10.  In the output of the extraction of a valid application
    (extractable is enough), no option of any schema has [choices],
    whatever the type of its parameter is. *)
Theorem option_choices_always_absent app h0 :
  extractable_app app = true →
  ∃ data h,
    introspect_click_app app h0 = inr (data, h) ∧
    option_choices_absent h data.
Proof.
  intros Hex.
  run_walk Hex data h Hall. intros b s [d Hd] Hs.
  destruct (depth_in_mirrors _ _ _ _ _ _ Hall Hd) as (n & cmd & par & Hm & _).
  destruct (mirrors_lookup _ _ _ _ _ _ Hm) as (s' & Hs' & Hnode & _).
  assert (s' = s) as -> by congruence. by destruct Hnode.
Qed.

Lemma option_choices_always_absent_witness :
  extractable_app demo_app = true ∧
  ∃ data h,
    introspect_click_app demo_app [] = inr (data, h) ∧
    option_choices_absent h data.
Proof.
  split; [reflexivity|].
  apply (option_choices_always_absent demo_app []). reflexivity.
Defined.

(** C8.  For every valid application (extractable is enough), the
    returned dict has the keys of [app.commands], in the same order; its
    schemas have [parent] absent; the [subcommands] of the output follow
    the nesting of the input at every depth, with a schema for every
    command and none besides; and a command without children has an empty
    [subcommands] dict. *)
Theorem extract_mirrors_nesting app h0 :
  extractable_app app = true →
  ∃ data h,
    introspect_click_app app h0 = inr (data, h) ∧ nesting_mirrored app h data.
Proof.
  intros Hex.
  run_walk Hex data h Hall. by eapply nesting_mirrored_of_mirrors.
Qed.

Lemma extract_mirrors_nesting_witness :
  extractable_app demo_app = true ∧
  ∃ data h,
    introspect_click_app demo_app [] = inr (data, h) ∧
    nesting_mirrored demo_app h data.
Proof.
  split; [reflexivity|].
  apply (extract_mirrors_nesting demo_app []). reflexivity.
Defined.

(** C6.  For every node of the output of the extraction of a valid
    application (extractable is enough), at depth [d], [path_from_root]
    returns a path that starts at a schema without parent, ends at the
    node itself, has [d + 1] elements, and in which every element is the
    parent of the next and lists it under its name. *)
Theorem path_from_root_is_rooted_path app h0 :
  extractable_app app = true →
  ∃ data h,
    introspect_click_app app h0 = inr (data, h) ∧ rooted_paths h data.
Proof.
  intros Hex.
  run_walk Hex data h Hall.
  by eapply rooted_paths_of_links, parent_links_of_mirrors.
Qed.

Lemma path_from_root_is_rooted_path_witness :
  extractable_app demo_app = true ∧
  ∃ data h,
    introspect_click_app demo_app [] = inr (data, h) ∧ rooted_paths h data.
Proof.
  split; [reflexivity|].
  apply (path_from_root_is_rooted_path demo_app []). reflexivity.
Defined.

(** C9.  On every finite, acyclic input, that is, on command objects that
    form a tree, the walk returns, and its nested calls are bounded by the
    depth of the tree: with a call stack of more frames than the tree is
    deep it makes the run of the structural recursion over the tree and
    does not raise [RecursionError].  (Nothing in the walk looks for a
    cycle: see [process_object_loops] for a group that lists itself.) *)
Theorem walk_terminates_within_tree_depth objects r cmd limit n par h :
  unfolds_to objects r cmd →
  command_depth cmd < limit →
  process_object limit objects n r par h = process_command n cmd par h ∧
  process_object limit objects n r par h ≠ inl RecursionError.
Proof.
  intros Hunf Hdepth. rewrite (process_object_enough objects cmd) by done.
  split; [done|]. intros Herr. apply process_command_error in Herr.
  by destruct Herr.
Qed.

Lemma walk_terminates_within_tree_depth_witness :
  unfolds_to demo_objects 0 tool_group ∧
  command_depth tool_group < 3 ∧
  process_object 3 demo_objects "tool" 0 None []
  = process_command "tool" tool_group None [] ∧
  process_object 3 demo_objects "tool" 0 None [] ≠ inl RecursionError.
Proof.
  assert (Hunf : unfolds_to demo_objects 0 tool_group).
  { repeat first
      [ reflexivity
      | apply List.Forall2_nil
      | apply List.Forall2_cons
      | split
      | (apply unfolds_command; reflexivity)
      | (eapply unfolds_group; [reflexivity|]) ]. }
  assert (Hdepth : command_depth tool_group < 3) by (simpl; lia).
  split; [exact Hunf|]. split; [exact Hdepth|].
  exact (walk_terminates_within_tree_depth demo_objects 0 tool_group 3
           "tool" None [] Hunf Hdepth).
Defined.

(** C5, as the code has it.  The walk checks nothing of its own.  Over an
    application whose [commands] are dicts, it fails exactly when some
    command has an option-like or positional parameter of which it cannot
    read [type.name]: a parameter object without a [type], as a
    [click.core.Group] among the parameters is, or a type without a
    [name].  The whole call then fails, with no partial tree, at the first
    such read in the order of the walk, and the error is the
    [AttributeError] of the missing attribute, [type] or [name], which
    carries neither the path of the command nor the name of the parameter.
    In every other case, a parameter of an unknown class included, the
    caller gets the complete tree of schemas: the shape of the input, the
    parent links, and at every command the options and the arguments of
    all its option-like and positional parameters. *)
Theorem extraction_fails_only_on_unreadable_type hp cb ps cs h0 :
  keys_unique (Group hp cb ps cs) = true →
  match first_of (λ kc, first_failure kc.2) cs with
  | None =>
      ∃ data h,
        introspect_click_app (Group hp cb ps cs) h0 = inr (data, h) ∧
        complete_tree (Group hp cb ps cs) h data
  | Some attr =>
      introspect_click_app (Group hp cb ps cs) h0
      = inl (AttributeError attr)
  end.
Proof.
  intros Hku. unfold keys_unique in Hku. rewrite all_commands_unfold in Hku.
  simpl in Hku. apply andb_prop in Hku as [Hnd Hku].
  destruct (first_of (λ kc, first_failure kc.2) cs) as [attr|] eqn:Hfirst.
  - simpl. by apply top_level_first_failure.
  - assert (Htr : forallb (λ kc, types_resolvable kc.2) cs = true).
    { apply (first_of_forallb (λ kc, first_failure kc.2)); [|done].
      apply Forall_forall. intros kc _. apply first_failure_resolvable. }
    assert (Hex : extractable_app (Group hp cb ps cs) = true).
    { simpl. rewrite Hnd. simpl. by apply forallb_extractable. }
    destruct (introspect_mirrors _ h0 Hex) as (data & h & Hrun & Hall).
    exists data, h. split; [done|]. by eapply complete_tree_of_mirrors.
Qed.

Lemma extraction_fails_only_on_unreadable_type_witness :
  (keys_unique unnamed_type_app = true ∧
   introspect_click_app unnamed_type_app [] = inl (AttributeError "name")) ∧
  (keys_unique group_param_app = true ∧
   introspect_click_app group_param_app [] = inl (AttributeError "type")) ∧
  (keys_unique unclassified_app = true ∧
   ∃ data h,
     introspect_click_app unclassified_app [] = inr (data, h) ∧
     complete_tree unclassified_app h data).
Proof.
  split; [|split]; (split; [reflexivity|]).
  - exact (extraction_fails_only_on_unreadable_type None None []
             (children unnamed_type_app) [] eq_refl).
  - exact (extraction_fails_only_on_unreadable_type None None []
             (children group_param_app) [] eq_refl).
  - exact (extraction_fails_only_on_unreadable_type None None []
             (children unclassified_app) [] eq_refl).
Defined.

(** C5, as stated, fails.  An application that breaks the contract, with a
    parameter that is neither an option nor an argument, is extracted
    without any failure, and the parameter is left out of the schema. *)
Lemma contract_violation_is_not_reported :
  valid_app unclassified_app = false ∧
  introspect_click_app unclassified_app []
  = inr ([("run", 0)],
         [{| name := "run";
             function := Some (FunctionRef 1);
             docstring := None;
             options := [];
             arguments := [];
             subcommands := [];
             parent := None |}]).
Proof. split; reflexivity. Qed.

(** No argument schema of the output has a default, whatever the
    positional parameter declares. *)
Lemma argument_defaults_always_absent app h0 :
  extractable_app app = true →
  ∃ data h,
    introspect_click_app app h0 = inr (data, h) ∧
    ∀ b s, reachable h data b → h !! b = Some s →
      Forall (λ a, argument_default a = PyNone) (arguments s).
Proof.
  intros Hex.
  run_walk Hex data h Hall. intros b s [d Hd] Hs.
  destruct (depth_in_mirrors _ _ _ _ _ _ Hall Hd) as (n & cmd & par & Hm & _).
  destruct (mirrors_lookup _ _ _ _ _ _ Hm) as (s' & Hs' & Hnode & _).
  assert (s' = s) as -> by congruence. by destruct Hnode.
Qed.

(** C7 does not hold of the code.  The positional parameter [who] of
    [greet] declares the default ["world"]; its argument schema has no
    default.  The option branch of the walk copies [param.default], the
    argument branch does not. *)
Theorem argument_default_is_dropped :
  (fmap param_default ∘ params)
    <$> find_command (children default_app) ["greet"]
  = Some [PyStr "world"] ∧
  introspect_click_app default_app []
  = inr ([("greet", 0)],
         [{| name := "greet";
             function := Some (FunctionRef 1);
             docstring := None;
             options := [];
             arguments :=
               [{| argument_name := "who";
                   argument_type := "text";
                   argument_required := false;
                   argument_default := PyNone;
                   argument_choices := None |}];
             subcommands := [];
             parent := None |}]).
Proof. split; reflexivity. Qed.

(** * Further properties of the code *)

(** ** [path_from_root] on any store *)

Lemma path_from_root_cases fuel h a path :
  path_from_root (S fuel) h a = Some path →
  ∃ s, h !! a = Some s ∧
       ((parent s = None ∧ path = [a]) ∨
        (∃ p path', parent s = Some p ∧
                    path_from_root fuel h p = Some path' ∧
                    path = path' ++ [a])).
Proof.
  intros Hrun. destruct (h !! a) as [s|] eqn:Ha.
  2: { unfold path_from_root in Hrun. simpl in Hrun. by rewrite Ha in Hrun. }
  exists s. split; [done|]. destruct (parent s) as [p|] eqn:Hp.
  - right. rewrite (path_from_root_sub h a s p fuel Ha Hp) in Hrun.
    destruct (path_from_root fuel h p) as [path'|] eqn:Hrun'; [|done].
    injection Hrun as <-. by exists p, path'.
  - left. rewrite (path_from_root_top h a s fuel Ha Hp) in Hrun.
    by injection Hrun as <-.
Qed.

Lemma path_from_root_more_fuel h fuel : ∀ a path fuel',
  path_from_root fuel h a = Some path → fuel ≤ fuel' →
  path_from_root fuel' h a = Some path.
Proof.
  induction fuel as [|fuel IH]; intros a path fuel' Hrun Hle; [done|].
  destruct fuel' as [|fuel']; [lia|].
  destruct (path_from_root_cases _ _ _ _ Hrun)
    as (s & Ha & [[Hp ->]|(p & path' & Hp & Hrun' & ->)]).
  - by eapply path_from_root_top.
  - erewrite path_from_root_sub by done.
    by erewrite IH by (done || lia).
Qed.

Lemma path_from_root_length h fuel : ∀ a path,
  path_from_root fuel h a = Some path → 0 < length path ≤ fuel.
Proof.
  induction fuel as [|fuel IH]; intros a path Hrun; [done|].
  destruct (path_from_root_cases _ _ _ _ Hrun)
    as (s & Ha & [[Hp ->]|(p & path' & Hp & Hrun' & ->)]).
  - simpl. lia.
  - apply IH in Hrun'. rewrite length_app. simpl. lia.
Qed.

(** X8.  Whatever the store holds, a path that [path_from_root] returns
    starts at an object without parent, ends at the queried object, and
    every element of it is the [parent] of the next. *)
Theorem path_from_root_sound fuel h a path :
  path_from_root fuel h a = Some path →
  (∃ r, head path = Some r ∧ is_root h r) ∧
  last path = Some a ∧
  parent_chain h path.
Proof.
  revert a path. induction fuel as [|fuel IH]; intros a path Hrun; [done|].
  destruct (path_from_root_cases _ _ _ _ Hrun)
    as (s & Ha & [[Hp ->]|(p & path' & Hp & Hrun' & ->)]).
  - split; [by exists a; split; [|exists s]|]. split; [done|].
    intros i q c _ Hc. by destruct i.
  - destruct (IH _ _ Hrun') as ((r & Hhead & Hroot) & Hlast & Hchain).
    pose proof (path_from_root_length _ _ _ _ Hrun') as Hlen.
    split; [|split; [apply last_snoc|]].
    + exists r. split; [|done]. destruct path'; [simpl in Hlen; lia|done].
    + intros i q c Hq Hc.
      destruct (decide (S i < length path')) as [Hlt|Hge].
      * rewrite lookup_app_l in Hq by lia. rewrite lookup_app_l in Hc by lia.
        eauto.
      * apply last_Some in Hlast as [front ->].
        assert (i = length front) as ->.
        { apply lookup_lt_Some in Hc. rewrite !length_app in *.
          simpl in *. lia. }
        rewrite <- app_assoc in Hq. simpl in Hq.
        rewrite list_lookup_middle in Hq by done. injection Hq as <-.
        replace (S (length front)) with (length (front ++ [p])) in Hc
          by (rewrite length_app; simpl; lia).
        rewrite list_lookup_middle in Hc by done. injection Hc as <-.
        by exists s.
Qed.

Lemma path_from_root_sound_witness :
  path_from_root 3 demo_store 4 = Some [0; 3; 4] ∧
  (∃ r, head [0; 3; 4] = Some r ∧ is_root demo_store r) ∧
  last [0; 3; 4] = Some 4 ∧
  parent_chain demo_store [0; 3; 4].
Proof.
  split; [reflexivity|].
  apply (path_from_root_sound 3 demo_store 4). reflexivity.
Defined.

(** X9.  The loop makes exactly as many tests as the path has elements,
    and the room given to it does not change what it returns: if
    [path_from_root] returns a path for some amount of fuel, it returns
    that path whenever the fuel is at least the length of the path, and
    runs out of fuel below that. *)
Theorem path_from_root_fuel fuel h a path fuel' :
  path_from_root fuel h a = Some path →
  path_from_root fuel' h a
  = if decide (length path ≤ fuel') then Some path else None.
Proof.
  intros Hrun.
  assert (Hexact : path_from_root (length path) h a = Some path).
  { clear fuel'. revert a path Hrun.
    induction fuel as [|fuel IH]; intros a path Hrun; [done|].
    destruct (path_from_root_cases _ _ _ _ Hrun)
      as (s & Ha & [[Hp ->]|(p & path' & Hp & Hrun' & ->)]).
    - by eapply path_from_root_top.
    - rewrite length_app. simpl. rewrite Nat.add_1_r.
      erewrite path_from_root_sub by done. by rewrite (IH _ _ Hrun'). }
  case_decide as Hle.
  - by eapply path_from_root_more_fuel.
  - destruct (path_from_root fuel' h a) as [path'|] eqn:Hrun'; [|done].
    pose proof (path_from_root_length _ _ _ _ Hrun') as Hlen.
    pose proof (path_from_root_more_fuel _ _ _ _ (length path) Hrun'
                  ltac:(lia)) as Hsame.
    rewrite Hexact in Hsame. injection Hsame as <-. lia.
Qed.

Lemma path_from_root_fuel_witness :
  path_from_root 3 demo_store 4 = Some [0; 3; 4] ∧
  path_from_root 2 demo_store 4 = None ∧
  path_from_root 7 demo_store 4 = Some [0; 3; 4].
Proof.
  split; [reflexivity|]. split.
  - exact (path_from_root_fuel 3 demo_store 4 [0; 3; 4] 2 eq_refl).
  - exact (path_from_root_fuel 3 demo_store 4 [0; 3; 4] 7 eq_refl).
Defined.

(** X10.  [path_from_root] returns, given enough fuel, exactly when the
    parent chain of the queried object reaches an object without parent. *)
Theorem path_from_root_returns_iff_rooted h a :
  (∃ fuel path, path_from_root fuel h a = Some path) ↔
  (∃ r, ancestor h a r ∧ is_root h r).
Proof.
  split.
  - intros (fuel & path & Hrun). revert a path Hrun.
    induction fuel as [|fuel IH]; intros a path Hrun; [done|].
    destruct (path_from_root_cases _ _ _ _ Hrun)
      as (s & Ha & [[Hp ->]|(p & path' & Hp & Hrun' & ->)]).
    + exists a. split; [constructor|by exists s].
    + destruct (IH _ _ Hrun') as (r & Hanc & Hroot).
      exists r. split; [|done]. by eapply ancestor_parent.
  - intros (r & Hanc & s & Hr & Hroot).
    induction Hanc as [a | a sa p r Ha Hp _ IH].
    + exists 1, [a]. by eapply path_from_root_top.
    + destruct (IH Hr) as (fuel & path & Hrun).
      exists (S fuel), (path ++ [a]).
      by erewrite path_from_root_sub, Hrun by done.
Qed.

(** The path of an object is no longer than the path of an object that
    has it among its ancestors. *)
Lemma path_from_root_ancestor h a x :
  ancestor h a x →
  ∀ fuel path, path_from_root fuel h a = Some path →
    ∃ path', path_from_root fuel h x = Some path' ∧
             length path' ≤ length path.
Proof.
  induction 1 as [a | a s p r Ha Hp _ IH]; intros fuel path Hrun; [eauto|].
  destruct fuel as [|fuel]; [done|].
  destruct (path_from_root_cases _ _ _ _ Hrun)
    as (s' & Ha' & [[Hp' ->]|(p' & path' & Hp' & Hrun' & ->)]);
    [congruence|].
  assert (p' = p) as -> by congruence.
  destruct (IH _ _ Hrun') as (pr & Hr & Hlen).
  exists pr. split.
  - eapply path_from_root_more_fuel; [exact Hr|lia].
  - rewrite length_app. simpl. lia.
Qed.

(** X11.  On a cycle of parents the loop never ends: for an object that is
    among the ancestors of its own parent, [path_from_root] runs out of
    any amount of fuel. *)
Theorem path_from_root_diverges_on_cycle h a s p fuel :
  h !! a = Some s → parent s = Some p → ancestor h p a →
  path_from_root fuel h a = None.
Proof.
  intros Ha Hp Hcycle.
  destruct (path_from_root fuel h a) as [path|] eqn:Hrun; [|done].
  destruct fuel as [|fuel]; [done|].
  destruct (path_from_root_cases _ _ _ _ Hrun)
    as (s' & Ha' & [[Hp' ->]|(p' & path' & Hp' & Hrun' & ->)]);
    [congruence|].
  assert (p' = p) as -> by congruence.
  destruct (path_from_root_ancestor _ _ _ Hcycle _ _ Hrun')
    as (pa & Hpa & Hlen).
  pose proof (path_from_root_more_fuel _ _ _ _ (S fuel) Hpa ltac:(lia))
    as Hpa'.
  rewrite Hrun in Hpa'. injection Hpa' as <-.
  rewrite length_app in Hlen. simpl in Hlen. lia.
Qed.

Lemma path_from_root_diverges_on_cycle_witness :
  path_from_root 100 [mkCommandSchema "a" None None [] [] [] (Some 1);
                      mkCommandSchema "b" None None [] [] [] (Some 0)] 0
  = None.
Proof.
  eapply (path_from_root_diverges_on_cycle _ 0 _ 1 100);
    [reflexivity | reflexivity |].
  eapply ancestor_parent; [reflexivity | reflexivity | constructor].
Defined.

(** The path of an element of a path is the path up to it. *)
Lemma path_from_root_take fuel h a path i x :
  path_from_root fuel h a = Some path →
  path !! i = Some x →
  path_from_root fuel h x = Some (take (S i) path).
Proof.
  revert a path. induction fuel as [|fuel IH]; intros a path Hrun Hx; [done|].
  destruct (path_from_root_cases _ _ _ _ Hrun)
    as (s & Ha & [[Hp ->]|(p & path' & Hp & Hrun' & ->)]).
  - destruct i; [|done]. by injection Hx as <-.
  - destruct (decide (i < length path')) as [Hlt|Hge].
    + rewrite lookup_app_l in Hx by done.
      rewrite take_app_le by lia.
      eapply path_from_root_more_fuel; [by eapply IH|lia].
    + assert (i = length path') as ->.
      { apply lookup_lt_Some in Hx. rewrite length_app in Hx. simpl in Hx.
        lia. }
      rewrite list_lookup_middle in Hx by done. injection Hx as <-.
      rewrite take_ge; [done|]. rewrite length_app. simpl. lia.
Qed.

(** X12.  Paths compose.  If [path_from_root] returns [path] for an
    object, then the path of the element of [path] at position [i] is the
    first [i + 1] elements of [path]; and when the object has a parent,
    [path] is the path of the parent followed by the object. *)
Theorem path_from_root_prefix fuel h a path :
  path_from_root fuel h a = Some path →
  (∀ i x, path !! i = Some x →
     path_from_root fuel h x = Some (take (S i) path)) ∧
  (∀ s p, h !! a = Some s → parent s = Some p →
     ∃ front, path = front ++ [a] ∧ path_from_root fuel h p = Some front).
Proof.
  intros Hrun. split.
  - intros i x Hx. by eapply path_from_root_take.
  - intros s p Ha Hp. destruct fuel as [|fuel]; [done|].
    destruct (path_from_root_cases _ _ _ _ Hrun)
      as (s' & Ha' & [[Hp' ->]|(p' & front & Hp' & Hfront & ->)]);
      [congruence|].
    assert (p' = p) as -> by congruence.
    exists front. split; [done|].
    eapply path_from_root_more_fuel; [exact Hfront|lia].
Qed.

Lemma path_from_root_prefix_witness :
  path_from_root 3 demo_store 4 = Some [0; 3; 4] ∧
  path_from_root 3 demo_store 3 = Some [0; 3].
Proof.
  split; [reflexivity|].
  destruct (path_from_root_prefix 3 demo_store 4 [0; 3; 4] eq_refl)
    as [Hprefix _].
  exact (Hprefix 1 3 eq_refl).
Defined.

(** X13.  A path that [path_from_root] returns has no object twice. *)
Theorem path_from_root_NoDup fuel h a path :
  path_from_root fuel h a = Some path → NoDup path.
Proof.
  intros Hrun. apply NoDup_alt. intros i j x Hi Hj.
  pose proof (path_from_root_take _ _ _ _ _ _ Hrun Hi) as Hpi.
  pose proof (path_from_root_take _ _ _ _ _ _ Hrun Hj) as Hpj.
  rewrite Hpi in Hpj. injection Hpj as Heq.
  apply (f_equal length) in Heq.
  apply lookup_lt_Some in Hi, Hj.
  rewrite !length_take_le in Heq by lia. lia.
Qed.

Lemma path_from_root_NoDup_witness :
  path_from_root 3 demo_store 4 = Some [0; 3; 4] ∧ NoDup [0; 3; 4].
Proof.
  split; [reflexivity|].
  exact (path_from_root_NoDup 3 demo_store 4 [0; 3; 4] eq_refl).
Defined.

(** ** What a run does to the store *)

(** A loop whose body only adds objects and only changes the object at
    [a0] among those it finds. *)
Lemma for_each_effect {A : Type} (f : A → Run unit) (w : A → nat) (a0 : nat)
    (l : list A) :
  (∀ x h u h', x ∈ l → a0 < length h → f x h = inr (u, h') →
     length h' = length h + w x ∧
     ∀ b, b < length h → b ≠ a0 → h' !! b = h !! b) →
  ∀ h u h', a0 < length h → for_each f l h = inr (u, h') →
    length h' = length h + sum_list_with w l ∧
    ∀ b, b < length h → b ≠ a0 → h' !! b = h !! b.
Proof.
  induction l as [|x l IH]; intros Hf h u h' Ha0.
  - intros [= _ <-]. simpl. split; [lia|done].
  - simpl. unfold bind. destruct (f x h) as [e|[u1 h1]] eqn:Hx; [done|].
    intros Hrest.
    destruct (Hf x h u1 h1 ltac:(apply elem_of_cons; by left) Ha0 Hx)
      as [Hlen1 Hpre1].
    destruct (IH ltac:(intros y ? ? ? Hy; apply Hf, elem_of_cons; by right)
                 h1 u h' ltac:(lia) Hrest) as [Hlen Hpre].
    split; [lia|]. intros b Hb Hne. rewrite Hpre by (done || lia). auto.
Qed.

Lemma process_param_effect a p h u h' :
  process_param a p h = inr (u, h') →
  length h' = length h + 0 ∧ ∀ b, b < length h → b ≠ a → h' !! b = h !! b.
Proof.
  unfold process_param, type_name_attr, bind, raise, ret, update.
  destruct (param_class p), (param_type p) as [[tn|] cs|[tn|]|]; simpl;
    try done; intros [= _ <-]; rewrite ?length_alter;
    (split; [lia|]); intros b Hb Hne; by rewrite ?list_lookup_alter_ne.
Qed.

Lemma sum_list_with_zero {A : Type} (l : list A) :
  sum_list_with (λ _, 0) l = 0.
Proof. induction l; simpl; lia. Qed.

Lemma command_count_unfold cmd :
  command_count cmd
  = S (sum_list_with (λ kc, command_count kc.2) (children cmd)).
Proof. by destruct cmd. Qed.

(** A successful call creates one object for each command of the tree,
    returns the first of them, and leaves the objects it finds alone. *)
Lemma process_command_effect cmd : ∀ n par h a h',
  process_command n cmd par h = inr (a, h') →
  a = length h ∧
  length h' = length h + command_count cmd ∧
  ∀ b, b < length h → h' !! b = h !! b.
Proof.
  induction cmd as [cmd IH] using Command_children_ind.
  intros n par h a h'. rewrite process_command_unfold, command_count_unfold.
  unfold bind, alloc.
  destruct (for_each (process_param _) _ _) as [e|[u1 h1]] eqn:Hps; [done|].
  destruct (for_each (process_child _) _ _) as [e|[u2 h2]] eqn:Hcs; [done|].
  intros [= <- <-].
  apply (for_each_effect _ (λ _, 0) (length h)) in Hps.
  2: { intros. by eapply process_param_effect. }
  2: { rewrite length_app. simpl. lia. }
  destruct Hps as [Hlen1 Hpre1].
  rewrite sum_list_with_zero, length_app in Hlen1. simpl in Hlen1.
  rewrite length_app in Hpre1. simpl in Hpre1.
  apply (for_each_effect _ (λ kc, command_count kc.2) (length h)) in Hcs.
  - destruct Hcs as [Hlen2 Hpre2]. split; [done|]. split; [lia|].
    intros b Hb. rewrite Hpre2 by lia. rewrite Hpre1 by lia.
    by apply lookup_app_l.
  - intros [k c] h3 u3 h4 Hin Ha. simpl. unfold bind.
    destruct (process_command k c _ h3) as [e|[child h5]] eqn:Hc; [done|].
    unfold update. intros [= _ <-].
    eapply Forall_forall in IH; [|exact Hin].
    destruct (IH _ _ _ _ _ Hc) as (-> & Hlen5 & Hpre5).
    rewrite length_alter. split; [done|]. intros b Hb Hne.
    rewrite list_lookup_alter_ne by done. auto.
  - lia.
Qed.

Lemma dict_set_elem {V : Type} (k k' : string) (v v' : V)
    (d : list (string * V)) :
  (k', v') ∈ dict_set k v d → (k', v') = (k, v) ∨ (k', v') ∈ d.
Proof.
  induction d as [|[k1 v1] d IH]; simpl.
  - intros ?%list_elem_of_singleton. by left.
  - case_decide.
    + intros [->|Hin]%elem_of_cons; [by left|]. right.
      apply elem_of_cons. by right.
    + intros [->|Hin]%elem_of_cons.
      * right. apply elem_of_cons. by left.
      * destruct (IH Hin) as [->|Hd]; [by left|]. right.
        apply elem_of_cons. by right.
Qed.

Lemma top_level_effect cs : ∀ data h data' h',
  top_level cs data h = inr (data', h') →
  length h' = length h + sum_list_with (λ kc, command_count kc.2) cs ∧
  (∀ b, b < length h → h' !! b = h !! b) ∧
  (∀ k a, (k, a) ∈ data' → (k, a) ∈ data ∨ length h ≤ a < length h').
Proof.
  induction cs as [|[k c] cs IH]; intros data h data' h'.
  - intros [= <- <-]. simpl. split; [lia|]. split; [done|]. by left.
  - simpl. unfold bind.
    destruct (process_command k c None h) as [e|[a h1]] eqn:Hc; [done|].
    intros Hrest.
    destruct (process_command_effect _ _ _ _ _ _ Hc) as (-> & Hlen1 & Hpre1).
    destruct (IH _ _ _ _ Hrest) as (Hlen & Hpre & Hdata).
    pose proof (command_count c). split; [lia|]. split.
    + intros b Hb. rewrite Hpre by lia. auto.
    + intros k' a' Hin. destruct (Hdata k' a' Hin) as [Hold|Hnew]; [|lia].
      apply dict_set_elem in Hold as [[= -> ->]|Hold]; [|by left].
      right. destruct c; simpl in *; lia.
Qed.

(** X1.  A successful extraction does not touch what the store already
    holds: it leaves every object it finds as it is, creates exactly one
    [CommandSchema] for each command below the application, and returns a
    dict of objects it has created. *)
Theorem extraction_only_adds_objects app h0 data h :
  introspect_click_app app h0 = inr (data, h) →
  length h
  = length h0 + sum_list_with (λ kc, command_count kc.2) (children app) ∧
  (∀ b, b < length h0 → h !! b = h0 !! b) ∧
  (∀ k a, (k, a) ∈ data → length h0 ≤ a < length h).
Proof.
  destruct app as [|hp cb ps cs]; [done|]. simpl. intros Hrun.
  destruct (top_level_effect _ _ _ _ _ Hrun) as (Hlen & Hpre & Hdata).
  split; [done|]. split; [done|]. intros k a Hin.
  destruct (Hdata k a Hin) as [Hnil|Hnew]; [|done].
  by apply elem_of_nil in Hnil.
Qed.

Lemma extraction_only_adds_objects_witness :
  introspect_click_app demo_app demo_store
  = inr ([("tool", 6)],
         demo_store ++ (relocate 6 <$> demo_store)) ∧
  length (demo_store ++ (relocate 6 <$> demo_store)) = 6 + 6 ∧
  (∀ b, b < length demo_store →
     (demo_store ++ (relocate 6 <$> demo_store)) !! b = demo_store !! b) ∧
  (∀ k a, (k, a) ∈ [("tool", 6)] →
     length demo_store ≤ a
     < length (demo_store ++ (relocate 6 <$> demo_store))).
Proof.
  split; [reflexivity|].
  exact (extraction_only_adds_objects demo_app demo_store _ _ eq_refl).
Defined.

(** ** The store that a run starts from *)

Lemma dict_set_relocate k key a d :
  relocate_dict k (dict_set key a d)
  = dict_set key (k + a) (relocate_dict k d).
Proof.
  unfold relocate_dict. induction d as [|[k1 a1] d IH]; [done|].
  simpl. case_decide; [done|]. rewrite fmap_cons. simpl. by rewrite IH.
Qed.

Lemma alloc_moved (before : Heap) s h :
  alloc (relocate (length before) s)
    (before ++ (relocate (length before) <$> h))
  = moved before (Nat.add (length before)) (alloc s h).
Proof.
  unfold alloc, moved.
  by rewrite length_app, length_fmap, fmap_app, app_assoc.
Qed.

Lemma update_moved (before : Heap) a f g h :
  (∀ s, f (relocate (length before) s) = relocate (length before) (g s)) →
  update (length before + a) f (before ++ (relocate (length before) <$> h))
  = moved before id (update a g h).
Proof.
  intros Hfg. unfold update, moved. rewrite alter_app_r.
  do 3 f_equal. symmetry. apply list_fmap_alter, Forall_forall. auto.
Qed.

Lemma bind_moved {A B : Type} (before : Heap) (m m' : Run A)
    (k k' : A → Run B) (moveA : A → A) (moveB : B → B) h :
  m' (before ++ (relocate (length before) <$> h)) = moved before moveA (m h) →
  (∀ x h1, k' (moveA x) (before ++ (relocate (length before) <$> h1))
           = moved before moveB (k x h1)) →
  bind m' k' (before ++ (relocate (length before) <$> h))
  = moved before moveB (bind m k h).
Proof.
  intros Hm Hk. unfold bind. rewrite Hm.
  destruct (m h) as [e|[x h1]]; simpl; [done|]. apply Hk.
Qed.

Lemma for_each_moved {A : Type} (before : Heap) (f f' : A → Run unit)
    (l : list A) :
  (∀ x h, x ∈ l →
     f' x (before ++ (relocate (length before) <$> h))
     = moved before id (f x h)) →
  ∀ h, for_each f' l (before ++ (relocate (length before) <$> h))
       = moved before id (for_each f l h).
Proof.
  induction l as [|x l IH]; intros Hf h; [done|]. simpl.
  eapply bind_moved.
  - apply Hf, elem_of_cons. by left.
  - intros _ h1. apply IH. intros y h2 Hy. apply Hf, elem_of_cons. by right.
Qed.

Lemma process_param_moved (before : Heap) a p h :
  process_param (length before + a) p
    (before ++ (relocate (length before) <$> h))
  = moved before id (process_param a p h).
Proof.
  unfold process_param, type_name_attr.
  destruct (param_class p), (param_type p) as [[tn|] cs|[tn|]|]; try done;
    unfold bind, ret; simpl; by apply update_moved.
Qed.

Lemma process_command_moved cmd : ∀ n par (before : Heap) h,
  process_command n cmd (Nat.add (length before) <$> par)
    (before ++ (relocate (length before) <$> h))
  = moved before (Nat.add (length before)) (process_command n cmd par h).
Proof.
  induction cmd as [cmd IH] using Command_children_ind.
  intros n par before h. rewrite !process_command_unfold.
  eapply bind_moved.
  { exact (alloc_moved before
             (mkCommandSchema n (callback cmd) (help cmd) [] [] [] par) h). }
  intros a h1. eapply (bind_moved _ _ _ _ _ id).
  { apply for_each_moved. intros p h2 _. apply process_param_moved. }
  intros _ h2. eapply (bind_moved _ _ _ _ _ id).
  { apply for_each_moved. intros [k c] h3 Hin. simpl.
    eapply Forall_forall in IH; [|exact Hin]. simpl in IH.
    eapply bind_moved; [exact (IH k (Some a) before h3)|].
    intros child h4. apply update_moved. intros s.
    unfold relocate, set_subcommand. simpl. f_equal.
    symmetry. apply dict_set_relocate. }
  intros _ h3. reflexivity.
Qed.

Lemma top_level_moved cs : ∀ data (before : Heap) h,
  top_level cs (relocate_dict (length before) data)
    (before ++ (relocate (length before) <$> h))
  = moved before (relocate_dict (length before)) (top_level cs data h).
Proof.
  induction cs as [|[k c] cs IH]; intros data before h; [done|]. simpl.
  eapply bind_moved; [exact (process_command_moved c k None before h)|].
  intros a h1. rewrite <- dict_set_relocate. apply IH.
Qed.

(** X2.  What the store already holds has no influence on the extraction:
    started from any store, the walk fails or returns as it does from the
    empty store, and the objects it creates are those it creates from the
    empty store, put after the objects that were there, every address in
    them moved up by their number.  Two extractions of one application so
    give two trees with the same content. *)
Theorem extraction_ignores_the_store app h0 :
  introspect_click_app app h0
  = moved h0 (relocate_dict (length h0)) (introspect_click_app app []).
Proof.
  destruct app as [|hp cb ps cs]; [done|]. simpl.
  pose proof (top_level_moved cs [] h0 []) as Hmoved. simpl in Hmoved.
  by rewrite app_nil_r in Hmoved.
Qed.

(** ** The outcomes of a call *)

(** Two loops over lists whose elements are treated alike, unless the first
    loop runs out of stack. *)
Lemma for_each_or_exhausted {A B : Type} (f : A → Run unit) (g : B → Run unit)
    (l : list A) (k : list B) :
  Forall2 (λ x y, ∀ h, f x h = inl RecursionError ∨ f x h = g y h) l k →
  ∀ h, for_each f l h = inl RecursionError ∨ for_each f l h = for_each g k h.
Proof.
  induction 1 as [|x y l k Hxy _ IH]; intros h; [by right|]. simpl.
  unfold bind. destruct (Hxy h) as [-> | ->]; [by left|].
  destruct (g y h) as [e|[u h']]; [by right|]. apply IH.
Qed.

(** On objects that form a tree, whatever the stack, the walk over the
    objects runs out of stack or is the walk over the tree. *)
Lemma process_object_or_exhausted objects cmd : ∀ r limit n par h,
  unfolds_to objects r cmd →
  process_object limit objects n r par h = inl RecursionError ∨
  process_object limit objects n r par h = process_command n cmd par h.
Proof.
  induction cmd as [cmd IH] using Command_children_ind.
  intros r limit n par h Hunf. destruct limit as [|limit]; [by left|].
  inversion Hunf as [r0 hp cb ps Hobj | r0 hp cb ps refs cs Hobj Hall];
    subst; rewrite process_object_unfold, process_command_unfold, Hobj;
    [by right|].
  unfold bind, alloc. simpl in *.
  destruct (for_each _ ps _) as [e|[u h']]; [by right|].
  destruct (for_each_or_exhausted
              (process_child_object limit objects (length h))
              (process_child (length h)) refs cs) with (h := h')
    as [-> | ->]; [|by left|by right].
  apply Forall2_flip. eapply Forall2_with_Forall; [exact IH| |].
  { apply Forall2_flip. exact Hall. }
  intros [k c] [k' r'] IHc [Hk Hc] h2. simpl in *. subst k'. unfold bind.
  destruct (IHc r' limit k (Some (length h)) h2 Hc) as [-> | ->];
    [by left|by right].
Qed.

(** X3.  A call of [process_command] on command objects that form a tree
    ends in one of three ways.  It runs out of call stack and raises
    [RecursionError].  Or it raises the [AttributeError] of the first read
    of [param.type.name] that fails, in the order of the walk: of [type]
    at a parameter object that has no type (a [click.core.Group] among the
    parameters), of [name] at a type without a name; the error says
    nothing else.  Or, and only when no such read fails anywhere in the
    tree, it returns the schema it has created first. *)
Theorem process_command_outcome objects r cmd limit n par h :
  unfolds_to objects r cmd →
  process_object limit objects n r par h = inl RecursionError ∨
  match first_failure cmd with
  | Some attr =>
      process_object limit objects n r par h = inl (AttributeError attr)
  | None =>
      ∃ h', process_object limit objects n r par h = inr (length h, h')
  end.
Proof.
  intros Hunf.
  destruct (process_object_or_exhausted objects cmd r limit n par h Hunf)
    as [Hout | ->]; [by left|]. right.
  destruct (first_failure cmd) as [attr|] eqn:Hfirst.
  - by apply process_command_first_failure.
  - by apply process_command_succeeds, first_failure_resolvable.
Qed.

Lemma process_command_outcome_witness :
  unfolds_to demo_objects 0 tool_group ∧
  (process_object 3 demo_objects "tool" 0 None [] = inl RecursionError ∨
   ∃ h', process_object 3 demo_objects "tool" 0 None [] = inr (0, h')).
Proof.
  assert (Hunf : unfolds_to demo_objects 0 tool_group).
  { repeat first
      [ reflexivity
      | apply List.Forall2_nil
      | apply List.Forall2_cons
      | split
      | (apply unfolds_command; reflexivity)
      | (eapply unfolds_group; [reflexivity|]) ]. }
  split; [exact Hunf|].
  exact (process_command_outcome demo_objects 0 tool_group 3 "tool" None []
           Hunf).
Defined.

(** ** Parameters of an unknown class *)

Lemma strip_unclassified_unfold cmd :
  help (strip_unclassified cmd) = help cmd ∧
  callback (strip_unclassified cmd) = callback cmd ∧
  params (strip_unclassified cmd) = filter param_classified (params cmd) ∧
  children (strip_unclassified cmd)
  = (λ kc, (kc.1, strip_unclassified kc.2)) <$> children cmd.
Proof. by destruct cmd. Qed.

Lemma params_loop_strip a ps : ∀ h,
  for_each (process_param a) (filter param_classified ps) h
  = for_each (process_param a) ps h.
Proof.
  induction ps as [|p ps IH]; intros h; [done|].
  rewrite filter_cons. case_decide as Hp; simpl; unfold bind.
  - destruct (process_param a p h) as [e|[u h1]]; [done|]. apply IH.
  - rewrite IH. unfold process_param.
    unfold param_classified, is_option_like, is_positional in Hp.
    by destruct (param_class p).
Qed.

(** The walk over a command is the walk over the command without its
    parameters of an unknown class. *)
Lemma unclassified_params_have_no_effect cmd : ∀ n par h,
  process_command n (strip_unclassified cmd) par h
  = process_command n cmd par h.
Proof.
  induction cmd as [cmd IH] using Command_children_ind.
  intros n par h. rewrite !process_command_unfold.
  destruct (strip_unclassified_unfold cmd) as (-> & -> & -> & ->).
  unfold bind, alloc. rewrite params_loop_strip.
  destruct (for_each (process_param _) _ _) as [e|[u h1]]; [done|].
  rewrite (for_each_Forall2 (process_child (length h))
             (process_child (length h)) _ (children cmd)); [done|].
  apply Forall2_fmap_l, Forall_Forall2_diag.
  eapply Forall_impl; [exact IH|]. intros [k c] IHc h2. simpl.
  unfold bind. by rewrite IHc.
Qed.

Lemma top_level_strip cs : ∀ data h,
  top_level ((λ kc, (kc.1, strip_unclassified kc.2)) <$> cs) data h
  = top_level cs data h.
Proof.
  induction cs as [|[k c] cs IH]; intros data h; [done|].
  rewrite fmap_cons. simpl. unfold bind.
  rewrite unclassified_params_have_no_effect.
  destruct (process_command k c None h) as [e|[a h1]]; [done|]. apply IH.
Qed.

(** X4.  A parameter that is neither an option, nor group-like, nor an
    argument leaves no trace: the extraction of an application is the
    extraction of the application with these parameters taken out, at
    every level; not even the name of their type is read. *)
Theorem unclassified_params_are_ignored app h0 :
  introspect_click_app (strip_unclassified app) h0
  = introspect_click_app app h0.
Proof.
  destruct app as [|hp cb ps cs]; [done|]. simpl. apply top_level_strip.
Qed.

(** ** The order in which the objects are created *)

Lemma mirrors_child hi h b n cmd par s k c :
  mirrors hi h b n cmd par →
  h !! b = Some s →
  (k, c) ∈ subcommands s →
  b < c < hi ∧ ∃ cmd', mirrors hi h c k cmd' (Some b).
Proof.
  inversion 1 as [a0 n0 cmd0 par0 s' Hb Hs' Hnode Hkids]; subst.
  intros Hs Hin. assert (s' = s) as -> by congruence.
  apply list_elem_of_lookup in Hin as [i Hi].
  destruct (Forall2_lookup_r _ _ _ _ _ Hkids Hi)
    as ([k' cmd'] & _ & Hk & Hlt & Hm).
  simpl in *. subst k'. split; [|by exists cmd'].
  split; [done|]. by inversion Hm.
Qed.

Lemma depth_in_created lo hi h cs data a d :
  Forall2 (λ kc ka, kc.1 = ka.1 ∧ lo ≤ ka.2 ∧
                    mirrors hi h ka.2 kc.1 kc.2 None) cs data →
  depth_in h data a d →
  lo ≤ a ∧ ∃ n cmd par, mirrors hi h a n cmd par.
Proof.
  intros Hall. induction 1 as [k a Hin | b s k c d Hb IH Hs Hin].
  - apply list_elem_of_lookup in Hin as [i Hi].
    destruct (Forall2_lookup_r _ _ _ _ _ Hall Hi)
      as ([k' cmd] & _ & _ & Hlo & Hm).
    simpl in *. eauto.
  - destruct IH as (Hlo & n & cmd & par & Hm).
    destruct (mirrors_child _ _ _ _ _ _ _ _ _ Hm Hs Hin)
      as ([Hlt _] & cmd' & Hmc).
    split; [lia|eauto].
Qed.

(** X5.  The schemas of the output are objects created by the run, each
    after its parent: every schema reachable from the returned dict is at
    an address that was free before the run, and every schema it lists in
    its [subcommands] was created after it.  So no schema is listed below
    itself. *)
Theorem schemas_are_created_after_their_parent app h0 :
  extractable_app app = true →
  ∃ data h,
    introspect_click_app app h0 = inr (data, h) ∧
    ∀ b s, reachable h data b → h !! b = Some s →
      length h0 ≤ b ∧
      ∀ k c, (k, c) ∈ subcommands s → b < c < length h.
Proof.
  intros Hex.
  destruct (introspect_builds app h0 Hex) as (data & h & Hrun & _ & _ & Hall).
  exists data, h. split; [done|]. intros b s [d Hd] Hs.
  destruct (depth_in_created _ _ _ _ _ _ _ Hall Hd)
    as (Hlo & n & cmd & par & Hm).
  split; [done|]. intros k c Hin.
  by destruct (mirrors_child _ _ _ _ _ _ _ _ _ Hm Hs Hin) as [? _].
Qed.

Lemma schemas_are_created_after_their_parent_witness :
  extractable_app demo_app = true ∧
  ∃ data h,
    introspect_click_app demo_app demo_store = inr (data, h) ∧
    ∀ b s, reachable h data b → h !! b = Some s →
      length demo_store ≤ b ∧
      ∀ k c, (k, c) ∈ subcommands s → b < c < length h.
Proof.
  split; [reflexivity|].
  apply (schemas_are_created_after_their_parent demo_app demo_store).
  reflexivity.
Defined.

(** ** Names and paths *)

Lemma dict_get_elem {V : Type} (k : string) (v : V) (d : list (string * V)) :
  NoDup (keys d) → (k, v) ∈ d → dict_get k d = Some v.
Proof.
  unfold keys. induction d as [|[k' v'] d IH]; intros Hnd Hin.
  - by apply elem_of_nil in Hin.
  - simpl in *. apply NoDup_cons in Hnd as [Hk' Hnd].
    apply elem_of_cons in Hin as [[= -> ->]|Hin].
    + by rewrite decide_True.
    + rewrite decide_False; [auto|]. intros ->. apply Hk'.
      apply list_elem_of_fmap. by exists (k', v).
Qed.

Lemma find_schema_snoc h names : ∀ d b s k c,
  find_schema h d names = Some b →
  h !! b = Some s →
  dict_get k (subcommands s) = Some c →
  find_schema h d (names ++ [k]) = Some c.
Proof.
  induction names as [|k1 rest IH]; intros d b s k c Hfind Hb Hk; [done|].
  simpl in Hfind. destruct (dict_get k1 d) as [a|] eqn:Hk1; [|done].
  destruct rest as [|k2 rest].
  - injection Hfind as ->. simpl. by rewrite Hk1, Hb, Hk.
  - destruct (h !! a) as [sa|] eqn:Ha; [|done].
    change ((k1 :: k2 :: rest) ++ [k]) with (k1 :: (k2 :: rest) ++ [k]).
    change (find_schema h d (k1 :: (k2 :: rest) ++ [k]))
      with (match dict_get k1 d with
            | None => None
            | Some a =>
                match h !! a with
                | None => None
                | Some s => find_schema h (subcommands s) ((k2 :: rest) ++ [k])
                end
            end).
    rewrite Hk1, Ha. by eapply IH.
Qed.

(** Going down by names, the path grows by the objects met. *)
Lemma find_schema_path hi h names : ∀ cs subs par prefix pnames a,
  Forall2 (λ kc ka, kc.1 = ka.1 ∧ mirrors hi h ka.2 kc.1 kc.2 par) cs subs →
  match par with
  | None => prefix = []
  | Some b => path_from_root (length prefix) h b = Some prefix
  end →
  named_path h prefix pnames →
  find_schema h subs names = Some a →
  ∃ path,
    path_from_root (length pnames + length names) h a = Some path ∧
    named_path h path (pnames ++ names).
Proof.
  induction names as [|k rest IH];
    intros cs subs par prefix pnames a Hall Hprefix Hnamed Hfind; [done|].
  simpl in Hfind. destruct (dict_get k subs) as [c|] eqn:Hk; [|done].
  destruct (mirrors_dict_get_r _ _ _ _ _ Hall _ _ Hk) as (cmd & _ & Hm).
  destruct (mirrors_lookup _ _ _ _ _ _ Hm) as (sc & Hc & Hnode & Hkids).
  pose proof (Forall2_length _ _ _ Hnamed) as Hlen.
  assert (Hpath : path_from_root (S (length prefix)) h c
                  = Some (prefix ++ [c])).
  { destruct par as [b|].
    - erewrite path_from_root_sub; [|done|by destruct Hnode].
      by rewrite Hprefix.
    - subst prefix. eapply path_from_root_top; [done|by destruct Hnode]. }
  assert (Hnamed' : named_path h (prefix ++ [c]) (pnames ++ [k])).
  { apply Forall2_app; [done|]. constructor; [|constructor].
    exists sc. by destruct Hnode. }
  destruct rest as [|k2 rest].
  - injection Hfind as <-. exists (prefix ++ [c]). split; [|done].
    simpl. rewrite <- Hlen, Nat.add_1_r. done.
  - rewrite Hc in Hfind.
    destruct (IH _ _ (Some c) (prefix ++ [c]) (pnames ++ [k]) a Hkids)
      as (path & Hrun & Hpn); [| done | done |].
    { rewrite length_app. simpl. by rewrite Nat.add_1_r. }
    exists path. rewrite <- app_assoc in Hpn. simpl in Hpn.
    split; [|done]. rewrite length_app in Hrun. simpl in *.
    by replace (length pnames + S (S (length rest)))
      with (length pnames + 1 + S (length rest)) by lia.
Qed.

(** Every node of the output is found by names. *)
Lemma depth_in_find_schema hi h cs data a d :
  NoDup (keys data) →
  Forall2 (λ kc ka, kc.1 = ka.1 ∧ mirrors hi h ka.2 kc.1 kc.2 None) cs data →
  depth_in h data a d →
  ∃ names, length names = S d ∧ find_schema h data names = Some a.
Proof.
  intros Hnd Hall. induction 1 as [k a Hin | b s k c d Hb IH Hs Hin].
  - exists [k]. split; [done|]. simpl. by rewrite (dict_get_elem k a data).
  - destruct IH as (names & Hlen & Hfind).
    destruct (depth_in_mirrors _ _ _ _ _ _ Hall Hb) as (n & cmd & par & Hm & _).
    destruct (mirrors_lookup _ _ _ _ _ _ Hm) as (s' & Hs' & Hnode & _).
    assert (s' = s) as -> by congruence.
    exists (names ++ [k]). split; [rewrite length_app; simpl; lia|].
    eapply find_schema_snoc; [done..|].
    apply dict_get_elem; [by destruct Hnode|done].
Qed.

(** X14.  Names and paths agree.  In the output of the extraction of a
    valid application (extractable is enough), the schema found by going
    down the [subcommands] along a list of names has a [path_from_root]
    whose objects carry exactly these names, in order; and every schema
    reachable from the returned dict is found by such a list of names. *)
Theorem path_from_root_spells_the_names app h0 :
  extractable_app app = true →
  ∃ data h,
    introspect_click_app app h0 = inr (data, h) ∧
    (∀ names a, find_schema h data names = Some a →
       ∃ path, path_from_root (length names) h a = Some path ∧
               named_path h path names) ∧
    (∀ a, reachable h data a → ∃ names, find_schema h data names = Some a).
Proof.
  intros Hex. run_walk Hex data h Hall.
  apply extractable_app_inv in Hex as (Hnd & _ & _). split.
  - intros names a Hfind.
    destruct (find_schema_path _ _ _ _ _ None [] [] a Hall eq_refl
                ltac:(constructor) Hfind) as (path & Hpath & Hnamed).
    by exists path.
  - intros a [d Hd].
    assert (Hnd' : NoDup (keys data)).
    { erewrite Forall2_keys; [exact Hnd| |exact Hall]. by intros ? ? [? _]. }
    destruct (depth_in_find_schema _ _ _ _ _ _ Hnd' Hall Hd)
      as (names & _ & Hfind).
    by exists names.
Qed.

Lemma path_from_root_spells_the_names_witness :
  extractable_app demo_app = true ∧
  ∃ data h,
    introspect_click_app demo_app [] = inr (data, h) ∧
    (∀ names a, find_schema h data names = Some a →
       ∃ path, path_from_root (length names) h a = Some path ∧
               named_path h path names) ∧
    (∀ a, reachable h data a → ∃ names, find_schema h data names = Some a).
Proof.
  split; [reflexivity|].
  apply (path_from_root_spells_the_names demo_app []). reflexivity.
Defined.

(** ** The call stack that a tree needs *)

Lemma command_depth_deepest_child cmd :
  0 < command_depth cmd →
  ∃ k c, (k, c) ∈ children cmd ∧ command_depth cmd = S (command_depth c).
Proof.
  destruct cmd as [|hp cb ps cs]; simpl; [lia|].
  induction cs as [|[k c] cs IH]; simpl; [lia|]. intros _.
  destruct (decide (foldr (λ kc d, S (command_depth kc.2) `max` d) 0 cs
                    ≤ S (command_depth c))) as [Hle|Hgt].
  - exists k, c. split; [apply elem_of_cons; by left|lia].
  - destruct IH as (k' & c' & Hin & Heq); [lia|].
    exists k', c'. split; [apply elem_of_cons; by right|lia].
Qed.

(** With no more frames than the tree is deep, the walk does not return. *)
Lemma process_object_exhausts objects cmd : ∀ r limit n par h,
  unfolds_to objects r cmd →
  limit ≤ command_depth cmd →
  ∃ e, process_object limit objects n r par h = inl e.
Proof.
  induction cmd as [cmd IH] using Command_children_ind.
  intros r limit n par h Hunf Hdepth.
  destruct limit as [|limit]; [simpl; eauto|].
  destruct (command_depth_deepest_child cmd ltac:(lia))
    as (k & c & Hin & Heq).
  inversion Hunf as [r0 hp cb ps Hobj | r0 hp cb ps refs cs Hobj Hall];
    subst; [by apply elem_of_nil in Hin|].
  simpl in Hin. rewrite process_object_unfold, Hobj. unfold bind, alloc.
  simpl. destruct (for_each _ ps _) as [e|[u h1]]; [eauto|].
  destruct (for_each_fails (process_child_object limit objects (length h))
              refs) with (h := h1) as [e ->]; [|eauto].
  apply list_elem_of_lookup in Hin as [i Hi].
  destruct (Forall2_lookup_r _ _ _ _ _ Hall Hi) as ([k' r'] & Hr' & Hk & Hc).
  simpl in *. apply Exists_exists. exists (k', r').
  split; [by eapply list_elem_of_lookup_2|]. intros h2. simpl. unfold bind.
  eapply Forall_forall in IH; [|by eapply list_elem_of_lookup_2].
  destruct (IH r' limit k' (Some (length h)) h2 Hc ltac:(simpl; lia))
    as [e ->].
  eauto.
Qed.

(** On a tree whose type names can all be read, the walk over the objects
    fails with nothing but [RecursionError]. *)
Lemma process_object_error objects cmd : ∀ r limit n par h e,
  unfolds_to objects r cmd →
  types_resolvable cmd = true →
  process_object limit objects n r par h = inl e →
  e = RecursionError.
Proof.
  induction cmd as [cmd IH] using Command_children_ind.
  intros r limit n par h e Hunf Htr.
  destruct limit as [|limit]; [by intros [= <-]|].
  unfold types_resolvable in Htr. rewrite all_commands_unfold in Htr.
  apply andb_prop in Htr as [Hps Hcs].
  rewrite process_object_unfold. unfold bind, alloc.
  assert (Hparams : object_params (objects r) = params cmd)
    by (inversion Hunf as [? ? ? ? Hobj|? ? ? ? ? ? Hobj]; by rewrite Hobj).
  rewrite Hparams.
  destruct (for_each_succeeds (process_param (length h)) (params cmd))
    with (h := h ++ [mkCommandSchema n (object_callback (objects r))
                       (object_help (objects r)) [] [] [] par])
    as [h1 ->].
  { apply Forall_forall. intros p Hp h2. apply process_param_succeeds.
    by eapply forallb_elem. }
  inversion Hunf as [r0 hp cb ps Hobj | r0 hp cb ps refs cs Hobj Hall];
    subst; rewrite Hobj; simpl; [done|].
  destruct (for_each _ refs h1) as [e'|[u h2]] eqn:Hloop; [|done].
  intros [= <-].
  eapply (for_each_error _ _ (λ e, e = RecursionError)); [|exact Hloop].
  intros [k' r'] h3 e3 Hin. simpl. unfold bind.
  destruct (process_object limit objects k' r' _ h3) as [e4|[child h4]]
    eqn:Hchild; [|done].
  intros [= <-]. apply list_elem_of_lookup in Hin as [i Hi].
  destruct (Forall2_lookup_l _ _ _ _ _ Hall Hi) as ([k c] & Hc & Hk & Hunfc).
  simpl in *. apply list_elem_of_lookup_2 in Hc.
  eapply Forall_forall in IH; [|exact Hc]. simpl in IH.
  eapply IH; [exact Hunfc| |exact Hchild].
  by apply (forallb_elem _ _ _ Hcs Hc).
Qed.

(** X7.  The calls of [process_command] nest exactly one level deeper than
    the tree is deep.  On command objects that form a tree, with type
    names that can all be read, the walk in which at most [limit] calls of
    [process_command] may be open at once is cut short if and only if
    [limit] is no more than the depth of the tree.  (The bound counts the
    calls of [process_command] alone, not the other frames that the
    interpreter's recursion limit counts.) *)
Theorem process_command_nesting_is_tree_depth objects r cmd limit n par h :
  unfolds_to objects r cmd →
  types_resolvable cmd = true →
  process_object limit objects n r par h = inl RecursionError
  ↔ limit ≤ command_depth cmd.
Proof.
  intros Hunf Htr. split.
  - intros Herr. destruct (decide (limit ≤ command_depth cmd)); [done|].
    rewrite (process_object_enough objects cmd) in Herr by (done || lia).
    destruct (process_command_succeeds cmd Htr n par h) as [h' Hok].
    congruence.
  - intros Hdepth.
    destruct (process_object_exhausts objects cmd r limit n par h Hunf Hdepth)
      as [e He].
    rewrite He. f_equal. by eapply process_object_error.
Qed.

Lemma process_command_nesting_is_tree_depth_witness :
  unfolds_to demo_objects 0 tool_group ∧
  types_resolvable tool_group = true ∧
  (process_object 2 demo_objects "tool" 0 None [] = inl RecursionError
   ↔ 2 ≤ command_depth tool_group) ∧
  (process_object 3 demo_objects "tool" 0 None [] = inl RecursionError
   ↔ 3 ≤ command_depth tool_group).
Proof.
  assert (Hunf : unfolds_to demo_objects 0 tool_group).
  { repeat first
      [ reflexivity
      | apply List.Forall2_nil
      | apply List.Forall2_cons
      | split
      | (apply unfolds_command; reflexivity)
      | (eapply unfolds_group; [reflexivity|]) ]. }
  split; [exact Hunf|]. split; [reflexivity|]. split.
  - exact (process_command_nesting_is_tree_depth demo_objects 0 tool_group 2
             "tool" None [] Hunf eq_refl).
  - exact (process_command_nesting_is_tree_depth demo_objects 0 tool_group 3
             "tool" None [] Hunf eq_refl).
Defined.

(** ** Defaults of arguments *)

(** X6.  The default of a positional parameter is never extracted: in the
    output of the extraction of a valid application (extractable is
    enough), the schema of every command has one argument for each
    positional parameter of the command, and the [default] of every one of
    them is absent, whatever the parameter declares. *)
Theorem argument_default_is_never_extracted app h0 :
  extractable_app app = true →
  ∃ data h,
    introspect_click_app app h0 = inr (data, h) ∧
    at_every_command app h data (λ cmd s,
      length (arguments s) = length (filter is_positional (params cmd)) ∧
      Forall (λ a, argument_default a = PyNone) (arguments s)).
Proof.
  intros Hex. run_walk_nodes Hex data h Hall.
  eapply at_every_command_impl; [|exact Hall].
  intros cmd s (n & par & Hnode).
  destruct Hnode as [_ _ _ _ _ _ Hargs Hdefaults _ _].
  split; [|done]. symmetry. by eapply Forall2_length.
Qed.

Lemma argument_default_is_never_extracted_witness :
  extractable_app default_app = true ∧
  ∃ data h,
    introspect_click_app default_app [] = inr (data, h) ∧
    at_every_command default_app h data (λ cmd s,
      length (arguments s) = length (filter is_positional (params cmd)) ∧
      Forall (λ a, argument_default a = PyNone) (arguments s)).
Proof.
  split; [reflexivity|].
  apply (argument_default_is_never_extracted default_app []). reflexivity.
Defined.
